(** * calcbot: the arithmetic engine ([Calculator], src/bot.go) and the
    session store ([Memcached], src/bot.go)

    The engine keeps its operands as Go [*big.Float] values.  Go's
    [math/big] is not part of the repository, so the module [BigFloat]
    below models the parts of it that [Calculator] calls, following the
    documented semantics of [math/big]: a [big.Float] is a binary floating
    point number with a per-value precision [prec] (mantissa bits),
    rounding mode ToNearestEven (the default, never changed here), and an
    arithmetic whose results are the exact results correctly rounded to the
    receiver's precision, where a receiver of precision 0 first takes the
    larger precision of its operands. *)

From Stdlib Require Import ZArith Ascii String List Lia DecimalString DecimalZ.
From stdpp Require Import base gmap strings.
Import ListNotations.
Open Scope Z_scope.

Module BigFloat.

(** Finite magnitudes: [Zero], or [m * 2^e] with [m] odd. *)
Inductive form := Zero | Finite (m : positive) (e : Z).

(** [prec] is Go's [uint32] precision field, [neg] its sign bit (a zero
    keeps its sign, as in Go).  The fields [mode] (always ToNearestEven
    here) and [acc] (never read by the engine) are left out. *)
Record t := mk { prec : Z; neg : bool; fm : form }.

(** [new(big.Float)]: precision 0, +0. *)
Definition new : t := mk 0 false Zero.

Fixpoint strip (m : positive) (e : Z) : form :=
  match m with
  | xO m' => strip m' (e + 1)
  | _ => Finite m e
  end.

(** The value [m * 2^e] as a form with an odd mantissa. *)
Definition normalize (m e : Z) : form :=
  match m with Zpos p => strip p e | _ => Zero end.

(** [n / d] scaled by [2^-e], as a fraction with integer terms. *)
Definition scale (n d e : Z) : Z * Z :=
  if e <=? 0 then (n * 2 ^ (- e), d) else (n, d * 2 ^ e).

(** Rounding of the magnitude [n / d] ([n >= 0], [d > 0]) to [p] bits,
    ToNearestEven: the scale [e] is chosen so that
    [2^(p-1) <= n / (d * 2^e) < 2^p]. *)
Definition round_mag (p n d : Z) : form :=
  if n <=? 0 then Zero else
  let e0 := Z.log2 n - Z.log2 d - (p - 1) in
  let e := (let '(a, b) := scale n d e0 in
            if a / b <? 2 ^ (p - 1) then e0 - 1 else e0) in
  let '(a, b) := scale n d e in
  let q := a / b in
  let r := a mod b in
  let m := if (b <? 2 * r) || ((2 * r =? b) && Z.odd q) then q + 1 else q in
  normalize m e.

(** The exact value as a signed numerator and a positive denominator. *)
Definition frac (x : t) : Z * Z :=
  match fm x with
  | Zero => (0, 1)
  | Finite m e =>
      let n := if neg x then Z.neg m else Z.pos m in
      if 0 <=? e then (n * 2 ^ e, 1) else (n, 2 ^ (- e))
  end.

(** [x.Sign()]. *)
Definition sign (x : t) : Z :=
  match fm x with Zero => 0 | Finite _ _ => if neg x then -1 else 1 end.

(** Precision of a receiver [z] with precision [zp] for operands [x], [y]. *)
Definition rprec (zp : Z) (x y : t) : Z :=
  if zp =? 0 then Z.max (prec x) (prec y) else zp.

(** [z.Add(x, y)]: an exact zero sum is +0 except for [(-0) + (-0)]. *)
Definition add (zp : Z) (x y : t) : t :=
  let p := rprec zp x y in
  let '(nx, dx) := frac x in
  let '(ny, dy) := frac y in
  let n := nx * dy + ny * dx in
  if n =? 0 then mk p (neg x && neg y) Zero
  else mk p (n <? 0) (round_mag p (Z.abs n) (dx * dy)).

(** [z.Sub(x, y)]: an exact zero difference is +0 except for [(-0) - (+0)]. *)
Definition sub (zp : Z) (x y : t) : t :=
  let p := rprec zp x y in
  let '(nx, dx) := frac x in
  let '(ny, dy) := frac y in
  let n := nx * dy - ny * dx in
  if n =? 0 then mk p (neg x && negb (neg y)) Zero
  else mk p (n <? 0) (round_mag p (Z.abs n) (dx * dy)).

(** [z.Mul(x, y)]: the sign is always the exclusive or of the signs. *)
Definition mul (zp : Z) (x y : t) : t :=
  let p := rprec zp x y in
  let '(nx, dx) := frac x in
  let '(ny, dy) := frac y in
  mk p (xorb (neg x) (neg y)) (round_mag p (Z.abs (nx * ny)) (dx * dy)).

(** [z.Quo(x, y)] for [y <> 0] (the engine checks [Sign() == 0] before
    every division); the sign is the exclusive or of the signs. *)
Definition quo (zp : Z) (x y : t) : t :=
  let p := rprec zp x y in
  let '(nx, dx) := frac x in
  let '(ny, dy) := frac y in
  mk p (xorb (neg x) (neg y)) (round_mag p (Z.abs nx * dy) (dx * Z.abs ny)).

(** [x.Int(nil)]: the integer part, truncated toward zero. *)
Definition int_trunc (x : t) : Z :=
  let '(n, d) := frac x in Z.quot n d.

(** [new(big.Float).SetInt(i)]: precision [max(i.BitLen(), 64)], exact. *)
Definition set_int (i : Z) : t :=
  let bits := if i =? 0 then 0 else Z.log2 (Z.abs i) + 1 in
  mk (Z.max bits 64) (i <? 0) (normalize (Z.abs i) 0).

(** [new(big.Float).SetFloat64(0)]: precision 53, +0. *)
Definition zero64 : t := mk 53 false Zero.

(** [z.SetUint64(u)] on a receiver of precision [zp]. *)
Definition set_uint64 (zp u : Z) : t :=
  let p := if zp =? 0 then 64 else zp in
  mk p false (round_mag p u 1).

End BigFloat.

(** ** [SetString] and [Text('f', -1)] of [math/big] *)
Module FloatConv.
Import BigFloat.

(** [p.pow5(n)] on a receiver of precision [zp]: the table up to [5^27],
    then square-and-multiply with a factor [f] of precision [zp + 64];
    every product is rounded to its receiver's precision. *)
Fixpoint pow5_loop (z f : t) (n : positive) : t :=
  match n with
  | xH => mul (prec z) z f
  | xI n' => pow5_loop (mul (prec z) z f) (mul (prec f) f f) n'
  | xO n' => pow5_loop z (mul (prec f) f f) n'
  end.

Definition pow5 (zp n : Z) : t :=
  if n <=? 27 then set_uint64 zp (5 ^ n)
  else pow5_loop (set_uint64 zp (5 ^ 27)) (set_uint64 (zp + 64) 5)
                 (Z.to_pos (n - 27)).

Definition is_digit (c : ascii) : bool :=
  (48 <=? nat_of_ascii c)%nat && (nat_of_ascii c <=? 57)%nat.

(** Leading decimal digits: their value appended to [acc], their count. *)
Fixpoint scan_digits (s : list ascii) (acc : Z) (cnt : nat)
  : Z * nat * list ascii :=
  match s with
  | c :: s' =>
      if is_digit c
      then scan_digits s' (acc * 10 + Z.of_nat (nat_of_ascii c - 48)) (S cnt)
      else (acc, cnt, s)
  | [] => (acc, cnt, [])
  end.

(** [new(big.Float).SetString(s)] on the texts [[sign] digits [. digits]]
    (at least one digit), the only forms the engine's display takes: the
    receiver gets precision 64; the digits form an integer [N] with [j]
    of them after the point; [N * 2^-j] is divided by [5^j] (computed at
    precision 128 by [pow5]) with rounding to 64 bits, or rounded directly
    when [j = 0].  Texts outside this form (exponents, base prefixes,
    underscores, "Inf") are refused here; the engine never holds them. *)
Definition parse (s : string) : option t :=
  let l := list_ascii_of_string s in
  let '(ng, l1) :=
    match l with
    | "-"%char :: r => (true, r)
    | "+"%char :: r => (false, r)
    | _ => (false, l)
    end in
  let '(n1, c1, l2) := scan_digits l1 0 0 in
  let '(n, c2, l3) :=
    match l2 with
    | "."%char :: r => scan_digits r n1 0
    | _ => (n1, 0%nat, l2)
    end in
  match l3 with
  | _ :: _ => None
  | [] =>
      if (c1 + c2 =? 0)%nat then None else
      let j := Z.of_nat c2 in
      if n =? 0 then Some (mk 64 ng Zero)
      else if j =? 0 then Some (mk 64 ng (round_mag 64 n 1))
      else Some (quo 64 (mk 64 ng (normalize n (- j))) (pow5 128 j))
  end.

(** Go's [decimal]: the value [0.dmant * 10^dexp], no trailing zero
    digit, and [dexp = 0] when [dmant] is empty. *)
Record decimal := mkdec { dmant : list nat; dexp : Z }.

Fixpoint digits_rev (fuel : nat) (n : Z) : list nat :=
  match fuel with
  | O => []
  | S f => if n <=? 0 then [] else Z.to_nat (n mod 10) :: digits_rev f (n / 10)
  end.

(** [m.utoa(10)] for [m >= 0] (the fuel is the bit length, enough digits). *)
Definition utoa (n : Z) : list nat :=
  rev (digits_rev (Z.to_nat (Z.log2 n + 1)) n).

Fixpoint drop_zeros (l : list nat) : list nat :=
  match l with
  | O :: l' => drop_zeros l'
  | _ => l
  end.

(** [trim(x)]. *)
Definition trim (x : decimal) : decimal :=
  let m := rev (drop_zeros (rev (dmant x))) in
  mkdec m (match m with [] => 0 | _ => dexp x end).

(** [x.init(m, shift)]: the exact decimal form of [m * 2^shift]. *)
Definition dinit (m shift : Z) : decimal :=
  let '(n, k) := if 0 <=? shift then (m * 2 ^ shift, 0)
                 else (m * 5 ^ (- shift), - shift) in
  let s := utoa n in
  trim (mkdec s (Z.of_nat (length s) - k)).

(** [x.at(i)]. *)
Definition dat (x : decimal) (i : Z) : nat :=
  if (0 <=? i) && (i <? Z.of_nat (length (dmant x)))
  then nth (Z.to_nat i) (dmant x) O else O.

(** [x.roundDown(n)]. *)
Definition round_down (x : decimal) (n : nat) : decimal :=
  if (length (dmant x) <=? n)%nat then x
  else trim (mkdec (firstn n (dmant x)) (dexp x)).

(** The loop of [roundUp] that skips the digits '9' before position [n]. *)
Fixpoint skip_nines (mant : list nat) (n : nat) : nat :=
  match n with
  | O => O
  | S n' => if (9 <=? nth n' mant O)%nat then skip_nines mant n' else n
  end.

(** [x.roundUp(n)]. *)
Definition round_up (x : decimal) (n : nat) : decimal :=
  if (length (dmant x) <=? n)%nat then x else
  match skip_nines (dmant x) n with
  | O => mkdec [1%nat] (dexp x + 1)
  | S k => mkdec (firstn k (dmant x) ++ [S (nth k (dmant x) O)]) (dexp x)
  end.

(** [shouldRoundUp(x, n)]. *)
Definition should_round_up (x : decimal) (n : nat) : bool :=
  if (nth n (dmant x) O =? 5)%nat && (S n =? length (dmant x))%nat
  then (0 <? n)%nat && Nat.odd (nth (n - 1) (dmant x) O)
  else (5 <=? nth n (dmant x) O)%nat.

(** [x.round(n)]. *)
Definition dround (x : decimal) (n : nat) : decimal :=
  if (length (dmant x) <=? n)%nat then x
  else if should_round_up x n then round_up x n else round_down x n.

(** The digit loop of [roundShortest]: walk along [d]'s digits until [d]
    has distinguished itself from [lower] and [upper]. *)
Fixpoint shortest_walk (d lower upper : decimal) (inclusive : bool)
    (ms : list nat) (i : nat) : decimal :=
  match ms with
  | [] => d
  | m :: ms' =>
      let l := dat lower (Z.of_nat i) in
      let u := dat upper (Z.of_nat i) in
      let okdown := negb (l =? m)%nat
                    || (inclusive && (S i =? length (dmant lower))%nat) in
      let okup := negb (m =? u)%nat
                  && (inclusive || (S m <? u)%nat
                      || (S i <? length (dmant upper))%nat) in
      if okdown && okup then dround d (S i)
      else if okdown then round_down d (S i)
      else if okup then round_up d (S i)
      else shortest_walk d lower upper inclusive ms' (S i)
  end.

(** [roundShortest(d, x)]: [mant] gets [prec x + 1] bits, so that its
    last bit is half an ulp; [lower] and [upper] are [x] minus and plus
    half an ulp. *)
Definition round_shortest (d : decimal) (x : t) : decimal :=
  match dmant d, fm x with
  | [], _ => d
  | _, Zero => d
  | _, Finite m e =>
      let s := (Z.log2 (Zpos m) + 1) - (prec x + 1) in
      let mant := if s <? 0 then Zpos m * 2 ^ (- s) else Zpos m / 2 ^ s in
      let exp := e + s in
      let lower := dinit (mant - 1) exp in
      let upper := dinit (mant + 1) exp in
      shortest_walk d lower upper (negb (Z.testbit mant 1)) (dmant d) O
  end.

Definition digit_char (n : nat) : ascii := ascii_of_nat (48 + n).

(** [fmtF(buf, prec, d)]. *)
Definition fmtF (p : Z) (d : decimal) : list ascii :=
  let intpart :=
    if 0 <? dexp d then
      let m := Z.min (Z.of_nat (length (dmant d))) (dexp d) in
      map digit_char (firstn (Z.to_nat m) (dmant d))
      ++ repeat "0"%char (Z.to_nat (dexp d - m))
    else ["0"%char] in
  let fracpart :=
    if 0 <? p then
      "."%char :: map (fun i => digit_char (dat d (dexp d + Z.of_nat i)))
                      (seq 0 (Z.to_nat p))
    else [] in
  intpart ++ fracpart.

(** [x.Text('f', -1)] for a finite [x]: sign, exact decimal form, shortest
    rounding, then [%f] with as many fraction digits as remain. *)
Definition text (x : t) : string :=
  let d := match fm x with
           | Zero => mkdec [] 0
           | Finite m e => dinit (Zpos m) e
           end in
  let d := round_shortest d x in
  let p := Z.max (Z.of_nat (length (dmant d)) - dexp d) 0 in
  string_of_list_ascii ((if neg x then ["-"%char] else []) ++ fmtF p d).

End FloatConv.

(** ** The engine: [Calculator] (src/bot.go) *)
Module Calc.
Import BigFloat FloatConv.

(** [ErrUnsupported], [ErrDivisionByZero], and the nil-pointer panic of
    [*c.Operator] or of an arithmetic call on a nil [Operands[0]] (only
    possible from a state the engine never builds). *)
Inductive error := ErrUnsupported | ErrDivisionByZero | ErrNilDereference.

(** [Calculator]: [Operands[0]], [Operands[1]] and [Operator] are
    pointers, [None] for nil.  Runes are Go [int32] code points, as [Z]. *)
Record Calculator := mkcalc {
  Display : string;
  Operand0 : option t;
  Operand1 : option t;
  Operator : option Z
}.

(** Every method mutates the engine in place and returns an error value:
    the result pairs the error ([None] for nil) with the engine after the
    call. *)
Definition result := (option error * Calculator)%type.

Definition reset (c : Calculator) : Calculator := mkcalc "0" None None None.

Definition NewCalculator : Calculator := mkcalc "0" None None None.

Definition set_display (c : Calculator) (s : string) : Calculator :=
  mkcalc s (Operand0 c) (Operand1 c) (Operator c).

(** [strings.ContainsRune(s, '.')]. *)
Definition contains_dot (s : string) : bool :=
  existsb (fun ch => Ascii.eqb ch "."%char) (list_ascii_of_string s).

(** [string(r)] for the runes it is applied to here (digits and '.'). *)
Definition rune_string (r : Z) : string :=
  String (ascii_of_nat (Z.to_nat r)) EmptyString.

Definition is_sentinel (s : string) : bool :=
  existsb (String.eqb s) ["NaN"; "Inf"; "+Inf"; "-Inf"]%string.

(** [ProcessOperand(r)]. *)
Definition ProcessOperand (c : Calculator) (r : Z) : result :=
  let isDigit := (48 <=? r) && (r <=? 57) in
  if negb (isDigit || ((r =? 46) && negb (contains_dot (Display c))))
  then (Some ErrUnsupported, c) else
  let c := if is_sentinel (Display c) then reset c else c in
  let c := match Operator c, Operand1 c with
           | Some _, None => mkcalc "0" (Operand0 c) (Some new) (Operator c)
           | _, _ => c
           end in
  if String.eqb (Display c) "0" && negb (r =? 46)
  then (None, set_display c (rune_string r))
  else (None, set_display c (String.append (Display c) (rune_string r))).

(** [strings.ContainsRune("%/*-+", r)]. *)
Definition is_operator (r : Z) : bool :=
  (r =? 37) || (r =? 47) || (r =? 42) || (r =? 45) || (r =? 43).

(** [strings.TrimSuffix(s, suf)]: [s[:len(s)-len(suf)]] when [s] ends
    with [suf], on the bytes of [s]. *)
Definition trim_suffix (s suf : string) : string :=
  let l := list_ascii_of_string s in
  let k := String.length suf in
  let n := length l in
  if (k <=? n)%nat
     && String.eqb (string_of_list_ascii (skipn (n - k) l)) suf
  then string_of_list_ascii (firstn (n - k) l) else s.

(** The [switch *c.Operator] of [calculate], on [Operands[0]] and the
    parsed second operand [b]: the error returned, or [result]; a rune
    outside the cases leaves [result = new(big.Float)]. *)
Definition compute (op : Z) (a : option t) (b : t) : error + t :=
  if op =? 43 then
    match a with None => inl ErrNilDereference | Some a => inr (add 0 a b) end
  else if op =? 45 then
    match a with None => inl ErrNilDereference | Some a => inr (sub 0 a b) end
  else if op =? 42 then
    match a with None => inl ErrNilDereference | Some a => inr (mul 0 a b) end
  else if op =? 47 then
    if sign b =? 0 then inl ErrDivisionByZero else
    match a with None => inl ErrNilDereference | Some a => inr (quo 0 a b) end
  else if op =? 37 then
    if sign b =? 0 then inl ErrDivisionByZero else
    match a with
    | None => inl ErrNilDereference
    | Some a =>
        let q := quo 0 a b in
        let floor := set_int (int_trunc q) in
        let m := mul 0 b floor in
        inr (sub 0 a m)
    end
  else inr new.

(** [calculate()]: note that [Operands[1]] is overwritten with the parsed
    display before the operator is examined. *)
Definition calculate (c : Calculator) : result :=
  match Operand1 c with
  | None => (Some ErrUnsupported, c)
  | Some _ =>
      match parse (Display c) with
      | None => (Some ErrUnsupported, c)
      | Some b =>
          let c := mkcalc (Display c) (Operand0 c) (Some b) (Operator c) in
          match Operator c with
          | None => (Some ErrNilDereference, c)
          | Some op =>
              match compute op (Operand0 c) b with
              | inl e => (Some e, c)
              | inr res =>
                  let res := if sign res =? 0 then zero64 else res in
                  (None, set_display (reset c) (trim_suffix (text res) ".0"))
              end
          end
      end
  end.

(** [ProcessOperator(r)]: 'C' = 67, 'T' = 84, '=' = 61. *)
Definition ProcessOperator (c : Calculator) (r : Z) : result :=
  if r =? 67 then (None, set_display c "0")
  else if r =? 84 then
    if String.eqb (Display c) "0" then (None, c)
    else match Display c with
         | String "-"%char rest => (None, set_display c rest)
         | d => (None, set_display c (String "-"%char d))
         end
  else if r =? 61 then calculate c
  else if negb (is_operator r) || match Operator c with Some _ => true | None => false end
  then (Some ErrUnsupported, c)
  else match parse (Display c) with
       | None => (Some ErrUnsupported, c)
       | Some a => (None, mkcalc (Display c) (Some a) (Operand1 c) (Some r))
       end.

(** The calls the bot makes, one per pressed button. *)
Inductive token := Digit (r : Z) | Op (r : Z).

Definition feed (c : Calculator) (k : token) : result :=
  match k with Digit r => ProcessOperand c r | Op r => ProcessOperator c r end.

(** A sequence of calls; the error of the last one and the final engine. *)
Fixpoint run (c : Calculator) (ks : list token) : result :=
  match ks with
  | [] => (None, c)
  | [k] => feed c k
  | k :: ks' => run (snd (feed c k)) ks'
  end.

(** The calls for the characters of [s] typed as operand tokens. *)
Definition digits_of (s : string) : list token :=
  map (fun ch => Digit (Z.of_nat (nat_of_ascii ch))) (list_ascii_of_string s).

(** The number of decimal separators in [s]. *)
Definition dot_count (s : string) : nat :=
  count_occ ascii_dec (list_ascii_of_string s) "."%char.

(** For the amended evaluation claim: the exact rational result of
    [a op b] for '+', '-', '*' and '/' (numerator, positive denominator),
    and its rounding to 64 bits with a zero result normalized to +0. *)
Definition exact_result (op : Z) (a b : t) : Z * Z :=
  let '(na, da) := frac a in
  let '(nb, db) := frac b in
  if op =? 43 then (na * db + nb * da, da * db)
  else if op =? 45 then (na * db - nb * da, da * db)
  else if op =? 42 then (na * nb, da * db)
  else (na * db * Z.sgn nb, da * Z.abs nb).

Definition round64 (q : Z * Z) : t :=
  let '(n, d) := q in
  let r := mk 64 (n <? 0) (round_mag 64 (Z.abs n) d) in
  if sign r =? 0 then zero64 else r.

(** The texts the display takes: an optional '-', at least one digit, and
    optionally a '.' followed by digits.  [split_digits] splits off the
    leading digits. *)
Fixpoint split_digits (l : list ascii) : list ascii * list ascii :=
  match l with
  | c :: l' =>
      if is_digit c then let '(a, b) := split_digits l' in (c :: a, b) else ([], l)
  | [] => ([], [])
  end.

Definition body_shape (l : list ascii) : bool :=
  let '(ip, rest) := split_digits l in
  match ip with [] => false | _ => true end &&
  match rest with
  | [] => true
  | "."%char :: r => forallb is_digit r
  | _ => false
  end.

Definition display_shape (s : string) : bool :=
  match list_ascii_of_string s with
  | "-"%char :: r => body_shape r
  | l => body_shape l
  end.

(** The same shape as a proposition on the characters. *)
Definition shape_l (l : list ascii) : Prop :=
  exists sg ip fp, l = sg ++ ip ++ fp /\ (sg = [] \/ sg = ["-"%char]) /\
    ip <> [] /\ Forall (fun c => is_digit c = true) ip /\
    (fp = [] \/ exists ds, fp = "."%char :: ds /\ Forall (fun c => is_digit c = true) ds).

(** The display invariant behind C7: at most one '.', and some character
    other than '-' (so the sign toggle never empties the display). *)
Definition display_ok (s : string) : Prop :=
  (dot_count s <= 1)%nat /\ Exists (fun ch => ch <> "-"%char) (list_ascii_of_string s).

(** Decimal digit lists, and the characters that are neither the
    separator nor the sign. *)
Definition digits_ok (l : list nat) : Prop := Forall (fun k => (k < 10)%nat) l.

Definition plain (ch : ascii) : Prop := ch <> "."%char /\ ch <> "-"%char.

(** The pointer discipline of the engine: a second operand only with an
    operator, an operator only with a first operand. *)
Definition ptr_inv (c : Calculator) : Prop :=
  (Operand1 c <> None -> Operator c <> None) /\ (Operator c <> None -> Operand0 c <> None).

(** States reachable from [NewCalculator] by any calls, failed or not. *)
Inductive reachable : Calculator -> Prop :=
  | reach_new : reachable NewCalculator
  | reach_operand c r : reachable c -> reachable (snd (ProcessOperand c r))
  | reach_operator c r : reachable c -> reachable (snd (ProcessOperator c r)).

End Calc.

(** ** The session store: [Memcached] (src/bot.go, the backoff version) *)
Module Store.

(** Go [int64] arithmetic: the two's complement wrap-around. *)
Definition wrap64 (z : Z) : Z := (z + 2 ^ 63) mod 2 ^ 64 - 2 ^ 63.

Definition in_int64 (z : Z) : Prop := - 2 ^ 63 <= z <= 2 ^ 63 - 1.

Section Store.
Context {V : Type}.

(** [cached]: the stored [interface{}] value and the expiry in
    [UnixNano]. *)
Record cached := mkcached { value : V; expireAt : Z }.

(** The state guarded by [mu]: [items], the [ttlTimeout] (a
    [time.Duration], in nanoseconds) and [inShutdown].  Every call takes
    [now], the [time.Now().UnixNano()] it reads. *)
Record Memcached := mkmc {
  items : gmap string cached;
  ttlTimeout : Z;
  inShutdown : bool
}.

Definition NewMemcached (ttl : Z) : Memcached := mkmc ∅ ttl false.

(** [Set(key, value)]: [time.Now().Add(ttl).UnixNano()] is the [int64]
    value of [now + ttl]. *)
Definition Set_ (mc : Memcached) (key : string) (v : V) (now : Z) : Memcached :=
  let isExists := match items mc !! key with Some _ => true | None => false end in
  if inShutdown mc && negb isExists then mc
  else mkmc (<[key := mkcached v (wrap64 (now + ttlTimeout mc))]> (items mc))
            (ttlTimeout mc) (inShutdown mc).

(** [Get(key)]: [None] for the nil interface; it takes only the read lock
    and writes nothing. *)
Definition Get (mc : Memcached) (key : string) (now : Z) : option V :=
  match items mc !! key with
  | None => None
  | Some item => if now >? expireAt item then None else Some (value item)
  end.

(** [cleanExpiredItems()]: the sweep of the reaper and of [Shutdown]. *)
Definition cleanExpiredItems (mc : Memcached) (now : Z) : Memcached :=
  mkmc (filter (fun kv : string * cached => now <= expireAt kv.2) (items mc))
       (ttlTimeout mc) (inShutdown mc).

(** [IsEmpty()]: [len(mc.items) == 0]. *)
Definition IsEmpty (mc : Memcached) : bool := bool_decide (items mc = ∅).

End Store.

(** The backoff of [Shutdown]: [time.Millisecond] and [shutdownIntervalMax]
    as [time.Duration] nanoseconds. *)
Definition Millisecond : Z := 1000000.
Definition shutdownIntervalMax : Z := 500 * Millisecond.

(** One call of [nextInterval] with base [intervalBase], where [j] is the
    value drawn by [rand.Intn(int(intervalBase/10))]: the interval
    returned and the next base. *)
Definition nextInterval (intervalBase j : Z) : Z * Z :=
  let interval := intervalBase + j in
  let b := intervalBase * 2 in
  (interval, if b >? shutdownIntervalMax then shutdownIntervalMax else b).

(** The successive intervals of one [Shutdown] (the first arms the timer,
    each later one re-arms it), for the successive draws [js]. *)
Fixpoint intervals (intervalBase : Z) (js : list Z) : list Z :=
  match js with
  | [] => []
  | j :: js' =>
      let '(i, b) := nextInterval intervalBase j in i :: intervals b js'
  end.

(** [rand.Intn(n)] returns a value in [[0, n)]. *)
Fixpoint draws_ok (intervalBase : Z) (js : list Z) : Prop :=
  match js with
  | [] => True
  | j :: js' =>
      0 <= j < intervalBase / 10 /\ draws_ok (snd (nextInterval intervalBase j)) js'
  end.

(** The base after [n] rounds, starting from [time.Millisecond]. *)
Fixpoint base_after (n : nat) : Z :=
  match n with
  | O => Millisecond
  | S n' => snd (nextInterval (base_after n') 0)
  end.

(** The base after [n] rounds from [b]. *)
Fixpoint iter_base (n : nat) (b : Z) : Z :=
  match n with O => b | S n' => iter_base n' (snd (nextInterval b 0)) end.

End Store.

(** ** Sequences of store calls, the mutex, and the drain loop of [Shutdown] *)
Module StoreOps.
Import Store.

Section Ops.
Context {V : Type}.

(** The calls that write the store: [Set] from the handlers and the sweep
    of the reaper goroutine, each with the clock value it reads. *)
Inductive op :=
| OSet (key : string) (v : V) (now : Z)
| OSweep (now : Z).

Definition apply_op (mc : @Memcached V) (o : op) : Memcached :=
  match o with
  | OSet k v now => Set_ mc k v now
  | OSweep now => cleanExpiredItems mc now
  end.

Fixpoint exec (mc : @Memcached V) (os : list op) : Memcached :=
  match os with [] => mc | o :: os' => exec (apply_op mc o) os' end.

(** What [select] in the drain loop of [Shutdown] picks: the timer, or
    [ctx.Done()]. *)
Inductive wake := Tick | CtxDone.

(** One round of the loop: the calls other goroutines make before it, the
    clock value [cleanExpiredItems] reads, and the [select] outcome used
    if the store is not empty yet. *)
Record round := mkround { r_ops : list op; r_now : Z; r_wake : wake }.

(** The [for] loop of [Shutdown] over the rounds that happen; [None] while
    it is still waiting, [Some (true, _)] for [return nil] and
    [Some (false, _)] for [return ctx.Err()]. *)
Fixpoint drain (mc : @Memcached V) (rs : list round) : option (bool * Memcached) :=
  match rs with
  | [] => None
  | r :: rs' =>
      let mc := cleanExpiredItems (exec mc (r_ops r)) (r_now r) in
      if IsEmpty mc then Some (true, mc)
      else match r_wake r with
           | CtxDone => Some (false, mc)
           | Tick => drain mc rs'
           end
  end.

(** [Shutdown(ctx)]: [inShutdown] is set under the lock, then the loop
    runs (the cleaner and the backoff timer do not change the store). *)
Definition Shutdown (mc : @Memcached V) (rs : list round) : option (bool * Memcached) :=
  drain (mkmc (items mc) (ttlTimeout mc) true) rs.

(** The store together with [mu] (held or not) and the [cleanerCh]
    channel (closed or not), for the code that locks. *)
Record LState := mkls { mu_held : bool; st : @Memcached V; cleaner_closed : bool }.

(** A call from one goroutine either returns, blocks forever, or panics. *)
Inductive outcome (A : Type) :=
| Done (a : A) (s : LState)
| Blocked
| Panic.
Arguments Done {A} a s.
Arguments Blocked {A}.
Arguments Panic {A}.

Definition M (A : Type) := LState -> outcome A.

Definition ret {A} (a : A) : M A := fun s => Done a s.

Definition bind {A B} (m : M A) (k : A -> M B) : M B :=
  fun s => match m s with
           | Done a s' => k a s'
           | Blocked => Blocked
           | Panic => Panic
           end.

(** [mu.Lock()]: [sync.RWMutex] is not reentrant, so a goroutine that
    already holds [mu] and locks it again waits for itself forever. *)
Definition lock : M unit :=
  fun s => if mu_held s then Blocked
           else Done tt (mkls true (st s) (cleaner_closed s)).

(** [mu.Unlock()]: Go aborts on the unlock of an unlocked mutex. *)
Definition unlock : M unit :=
  fun s => if mu_held s then Done tt (mkls false (st s) (cleaner_closed s))
           else Panic.

Definition modify_st (f : @Memcached V -> Memcached) : M unit :=
  fun s => Done tt (mkls (mu_held s) (f (st s)) (cleaner_closed s)).

Definition load_inShutdown : M bool := fun s => Done (inShutdown (st s)) s.

Definition set_shutdown (mc : @Memcached V) : Memcached :=
  mkmc (items mc) (ttlTimeout mc) true.

(** [cleanerOnce.Do(func() { close(mc.cleanerCh) })]. *)
Definition close_once : M unit :=
  fun s => Done tt (mkls (mu_held s) (st s) true).

End Ops.

Arguments Done {V A} a s.
Arguments Blocked {V A}.
Arguments Panic {V A}.

Notation "x <- m ;; k" := (bind m (fun x => k)) (at level 100, m at next level, right associativity).
Notation "m ;;; k" := (bind m (fun _ => k)) (at level 100, right associativity).

Section Locked.
Context {V : Type}.

(** [closeCleaner()]: the deferred [Unlock] runs at the return. *)
Definition closeCleaner : @M V unit :=
  lock ;;; close_once ;;; unlock.

(** [Close()], with its deferred [Unlock]; [false] is [ErrMemcachedClosed]. *)
Definition Close_m : @M V bool :=
  lock ;;;
  b <- load_inShutdown ;;
  if b then unlock ;;; ret false
  else modify_st set_shutdown ;;;
       closeCleaner ;;;
       modify_st (fun mc => mkmc ∅ (ttlTimeout mc) (inShutdown mc)) ;;;
       unlock ;;; ret true.

(** The start of [Shutdown(ctx)], before its drain loop. *)
Definition Shutdown_start : @M V unit :=
  lock ;;; modify_st set_shutdown ;;; unlock ;;; closeCleaner.

End Locked.
End StoreOps.

(** ** The Telegram front end: [Bot] (src/bot.go) *)
Module BotModel.
Import Calc Store StoreOps.

(** [fmt.Sprintf("%d", n)] for an [int64] [n]: the decimal digits, with a
    leading '-' for a negative [n]. *)
Definition fmt_d (n : Z) : string := NilEmpty.string_of_int (Z.to_int n).

(** [fmt.Sprintf("%d_%d", chatID, fromID)]. *)
Definition session_key (chat from : Z) : string :=
  String.append (fmt_d chat) (String.append "_" (fmt_d from)).

(** The store holds [*Calculator] pointers; a pointer is a location of the
    heap of engines, which the handlers mutate in place. *)
Definition loc := positive.

(** The Bot API calls, in the order they are made:
    [NewCallback(callback.ID, "")], the [NewMessage] of [createMessage]
    and of [createKeyboard] (the latter with the keyboard attached), and
    the [NewEditMessageText] of [updateKeyboard]. *)
Inductive request :=
| AnswerCallback (id : string)
| SendText (chat : Z) (text : string)
| SendKeyboard (chat : Z) (text : string)
| EditText (chat : Z) (msg : Z) (text : string).

(** The state the handlers act on: the store, the engines behind its
    pointers, the next fresh location, the API calls made so far, and
    [Bot.inShutdown]. *)
Record World := mkworld {
  store : @Memcached loc;
  heap : gmap loc Calculator;
  next_loc : loc;
  sent : list request;
  b_inShutdown : bool
}.

(** The errors a handler returns: the error of a failed API call,
    [ErrSessionExpired], an engine error ([ErrUnsupported] is the only one
    passed on), and a runtime panic (nil dereference). *)
Inductive berror := BApi | BSessionExpired | BEngine (e : error) | BPanic.

(** A [CallbackQuery] on a message sent by the bot: its [ID], the
    [Message.Chat.ID], [Message.MessageID] and [Message.Text], [From.ID]
    and [Data]. *)
Record Callback := mkcb {
  cb_id : string; cb_chat : Z; cb_msg_id : Z; cb_msg_text : string;
  cb_from : Z; cb_data : string
}.

(** A [Message]: [Chat.ID], [From] ([None] for nil) and [Text]. *)
Record Message := mkmsg { msg_chat : Z; msg_from : option Z; msg_text : string }.

Section Handlers.
(** The Bot API: whether a request succeeds. *)
Variable api : request -> bool.

Definition log (w : World) (q : request) : World :=
  mkworld (store w) (heap w) (next_loc w) (sent w ++ [q]) (b_inShutdown w).

Definition send (w : World) (q : request) : option berror * World :=
  (if api q then None else Some BApi, log w q).

Definition set_store (w : World) (mc : @Memcached loc) : World :=
  mkworld mc (heap w) (next_loc w) (sent w) (b_inShutdown w).

Definition set_heap (w : World) (h : gmap loc Calculator) : World :=
  mkworld (store w) h (next_loc w) (sent w) (b_inShutdown w).

(** [new(Calculator)]: a fresh location. *)
Definition alloc (w : World) (c : Calculator) : loc * World :=
  (next_loc w, mkworld (store w) (<[next_loc w := c]> (heap w)) (Pos.succ (next_loc w))
                       (sent w) (b_inShutdown w)).

Definition createMessage (w : World) (chat : Z) (text : string) : option berror * World :=
  send w (SendText chat text).

Definition createKeyboard (w : World) (chat : Z) (text : string) : option berror * World :=
  send w (SendKeyboard chat text).

(** [updateKeyboard]: no request when the text is already shown. *)
Definition updateKeyboard (w : World) (cb : Callback) (text : string) : option berror * World :=
  if String.eqb text (cb_msg_text cb) then (None, w)
  else send w (EditText (cb_chat cb) (cb_msg_id cb) text).

Definition expired_text : string := "Your session has expired, please /open a new one.".

(** [strings.ContainsRune("0123456789.", r)]. *)
Definition is_operand_key (r : Z) : bool := ((48 <=? r) && (r <=? 57)) || (r =? 46).

(** The middle of [handleCallback], on the pointer [l] read from the
    store: the error, the pointer [calculator] then holds, and the world.
    A [*Calculator] method mutates the engine in place, failed or not; a
    nil dereference inside it is a panic. *)
Definition press (w : World) (l : loc) (data : string) : option berror * loc * World :=
  if String.eqb data "AC" then
    let '(l', w) := alloc w NewCalculator in (None, l', w)
  else match data with
  | String ch EmptyString =>
      let r := Z.of_nat (nat_of_ascii ch) in
      match heap w !! l with
      | None => (Some BPanic, l, w)
      | Some c =>
          let '(err, c') := if is_operand_key r then ProcessOperand c r
                            else ProcessOperator c r in
          let w := set_heap w (<[l := c']> (heap w)) in
          match err with
          | None => (None, l, w)
          | Some ErrNilDereference => (Some BPanic, l, w)
          | Some _ => (Some (BEngine ErrUnsupported), l, w)
          end
      end
  | _ => (Some (BEngine ErrUnsupported), l, w)
  end.

(** [handleCallback(callback)]; [t_get] and [t_set] are the clock values
    read by [Get] and by [Set]. *)
Definition handleCallback (w : World) (cb : Callback) (t_get t_set : Z)
    : option berror * World :=
  let '(e, w) := send w (AnswerCallback (cb_id cb)) in
  match e with Some e => (Some e, w) | None =>
  let key := session_key (cb_chat cb) (cb_from cb) in
  match Get (store w) key t_get with
  | None =>
      let '(e, w) := updateKeyboard w cb expired_text in
      match e with Some e => (Some e, w) | None => (Some BSessionExpired, w) end
  | Some l =>
      let '(e, l, w) := press w l (cb_data cb) in
      match e with Some e => (Some e, w) | None =>
      match heap w !! l with
      | None => (Some BPanic, w)
      | Some c =>
          let '(e, w) := updateKeyboard w cb (Display c) in
          match e with
          | None => (None, set_store w (Set_ (store w) key l t_set))
          | Some e => (Some e, w)
          end
      end end
  end end.

Definition help : string :=
  String.append "Help:" (String.append (String "010"%char EmptyString)
  (String.append "/start - welcome message." (String.append (String "010"%char EmptyString)
  (String.append "/open - open new session." (String.append (String "010"%char EmptyString)
   "/help - send this message."))))).

Definition not_expired_text : string := "Your session is not expired!".

(** [handleCommand(command)], with the [welcome] text of the bot. *)
Definition handleCommand (welcome : string) (w : World) (m : Message) (t_get t_set : Z)
    : option berror * World :=
  if String.eqb (msg_text m) "/start" then createMessage w (msg_chat m) welcome
  else if String.eqb (msg_text m) "/help" then createMessage w (msg_chat m) help
  else if String.eqb (msg_text m) "/open" then
    match msg_from m with
    | None => (Some BPanic, w)
    | Some from =>
        let key := session_key (msg_chat m) from in
        match Get (store w) key t_get with
        | Some _ => createMessage w (msg_chat m) not_expired_text
        | None =>
            let '(l, w) := alloc w NewCalculator in
            let '(e, w) := createKeyboard w (msg_chat m) (Display NewCalculator) in
            match e with
            | None => (None, set_store w (Set_ (store w) key l t_set))
            | Some e => (Some e, w)
            end
        end
    end
  else createMessage w (msg_chat m) "Unknown command. Try /help".

(** What happens while [Run] reads its updates: an update (its callback
    and message with the clock values their handlers read), a sweep of the
    reaper goroutine, [Bot.Shutdown] setting [b.inShutdown], and
    [Memcached.Shutdown] setting [mc.inShutdown]. *)
Inductive event :=
| Update (cb : option (Callback * Z * Z)) (m : option (Message * Z * Z))
| Sweep (now : Z)
| BotShutdown
| StoreShutdown.

(** One iteration of the loop of [Run]; [None] when a handler panics. An
    error of [handleCallback] skips the message of the update. *)
Definition run_update (welcome : string) (w : World)
    (cb : option (Callback * Z * Z)) (m : option (Message * Z * Z)) : option World :=
  if b_inShutdown w && IsEmpty (store w) then Some w else
  let r := match cb with
           | None => Some (false, w)
           | Some (c, t1, t2) =>
               match handleCallback w c t1 t2 with
               | (Some BPanic, _) => None
               | (Some _, w) => Some (true, w)
               | (None, w) => Some (false, w)
               end
           end in
  match r with
  | None => None
  | Some (true, w) => Some w
  | Some (false, w) =>
      match m with
      | None => Some w
      | Some (msg, t1, t2) =>
          match handleCommand welcome w msg t1 t2 with
          | (Some BPanic, _) => None
          | (_, w) => Some w
          end
      end
  end.

Definition run_event (welcome : string) (w : World) (ev : event) : option World :=
  match ev with
  | Update cb m => run_update welcome w cb m
  | Sweep now => Some (set_store w (cleanExpiredItems (store w) now))
  | BotShutdown => Some (mkworld (store w) (heap w) (next_loc w) (sent w) true)
  | StoreShutdown => Some (set_store w (set_shutdown (store w)))
  end.

Fixpoint run_events (welcome : string) (w : World) (evs : list event) : option World :=
  match evs with
  | [] => Some w
  | ev :: evs' =>
      match run_event welcome w ev with
      | None => None
      | Some w => run_events welcome w evs'
      end
  end.

End Handlers.

(** Sample worlds and inputs. *)
Definition w0 : World := mkworld (NewMemcached 10) ∅ 1%positive [] false.

Definition cb0 : Callback := mkcb "q1" 7 100 "5" 9 "1".

Definition w1 : World :=
  mkworld (Set_ (NewMemcached 10) (session_key 7 9) 1%positive 0)
          {[ 1%positive := snd (run NewCalculator [Digit 56; Op 43; Digit 50]) ]}
          2%positive [] false.

Definition w2 : World :=
  mkworld (Set_ (NewMemcached 10) (session_key 7 9) 1%positive 0)
          {[ 1%positive := snd (run NewCalculator [Digit 56; Op 47; Digit 48]) ]}
          2%positive [] false.

(** An API on which every edit fails. *)
Definition api_noedit (q : request) : bool :=
  match q with EditText _ _ _ => false | _ => true end.

(** The invariant of the handlers: every pointer in the store points to
    an engine, and every engine is reachable from [NewCalculator]. *)
Definition wf (w : World) : Prop :=
  (forall k it, items (store w) !! k = Some it -> is_Some (heap w !! value it)) /\
  (forall l c, heap w !! l = Some c -> reachable c).

(** Every "/open" message of an event has a sender. *)
Definition open_has_sender (ev : event) : Prop :=
  match ev with
  | Update _ (Some (m, _, _)) => msg_text m = "/open"%string -> msg_from m <> None
  | _ => True
  end.

End BotModel.

(** ** The configuration reader: package [env] (src/bot.go) *)
Module Env.

(** [strings.Cut(s, ",")]: the text before the first ',', the text after
    it, and whether there was one. *)
Fixpoint cut (s : string) : string * string * bool :=
  match s with
  | EmptyString => (EmptyString, EmptyString, false)
  | String c s' =>
      if Ascii.eqb c ","%char then (EmptyString, s', true)
      else let '(b, a, f) := cut s' in (String c b, a, f)
  end.

(** [strings.Split(s, ",")]: the pieces between the commas ([[""]] for
    the empty string). *)
Fixpoint split_comma (s : string) : list string :=
  match s with
  | EmptyString => [EmptyString]
  | String c s' =>
      if Ascii.eqb c ","%char then EmptyString :: split_comma s'
      else match split_comma s' with
           | [] => [String c EmptyString]
           | p :: ps => String c p :: ps
           end
  end.

(** [parseTag(tag)]: the name and the options ([tagOptions]). *)
Definition parseTag (tag : string) : string * string :=
  let '(name, opt, _) := cut tag in (name, opt).

(** The [for s != ""] loop of [Contains]; each round cuts at least one
    byte, so [String.length o] rounds are enough. *)
Fixpoint contains_loop (fuel : nat) (s optionName : string) : bool :=
  match fuel with
  | O => false
  | S fuel' =>
      match s with
      | EmptyString => false
      | _ =>
          let '(name, s', _) := cut s in
          if String.eqb name optionName then true else contains_loop fuel' s' optionName
      end
  end.

(** [tagOptions.Contains(optionName)]. *)
Definition Contains (o optionName : string) : bool :=
  if (String.length o =? 0)%nat then false
  else contains_loop (String.length o) o optionName.

Section Read.
(** The Go types of the fields that [parseValue] handles, and its
    errors. *)
Context {T E : Type}.
(** [os.LookupEnv]. *)
Variable LookupEnv : string -> option string.
(** [parseValue(fieldValue, name, env)]: [None] for nil. *)
Variable parseValue : T -> string -> string -> option E.

(** A field of a struct [Read] looks at: whether it is exported
    (unexported fields fail [CanSet] and [CanInterface], and so does
    everything reached through them), and its kind:
    - [FStruct]: a field of struct kind, with the fields of its value;
    - [FLeaf]: a field of any other kind but pointer, with its [env] tag,
      its [env-default] tag and its type;
    - [FPtrStruct], [FPtrLeaf]: a pointer field, whether it is nil, and the
      value it points to as above; for a nil pointer this is the zero value
      [reflect.New] allocates (its own pointer fields nil). A pointer to a
      pointer is a [FPtrLeaf] whose type is the inner pointer type. *)
#[warnings="-register-all"]
Inductive field :=
| FStruct (exported : bool) (fs : list field)
| FLeaf (exported : bool) (tag : option string) (deftag : option string) (ty : T)
| FPtrStruct (exported : bool) (isnil : bool) (fs : list field)
| FPtrLeaf (exported : bool) (isnil : bool) (tag : option string) (deftag : option string)
    (ty : T).

(** The value given to [Read]: a pointer to a struct, a struct (its
    fields are then not addressable), or anything else (a nil pointer, a
    pointer to a pointer, a value of another kind). *)
Inductive root := RPtrStruct (fs : list field) | RStruct (fs : list field) | ROther.

(** The errors of [Read]: "unexpected type", the "is required" error for
    a name, or an error of [parseValue]. *)
Inductive rerror := ErrUnexpectedType | ErrRequired (name : string) | ErrValue (e : E).

(** What a call of [Read] does: return nil, return an error, or panic
    (a [reflect] call on a value that does not allow it). *)
Inductive outcome := ONil | OErr (e : rerror) | OPanic.

(** The body of the loop of [Read] for a settable field with an [env]
    tag. *)
Definition read_leaf (tagValue : string) (defValue : option string) (ty : T) : option rerror :=
  let '(name, options) := parseTag tagValue in
  let isRequired := Contains options "required" in
  match LookupEnv name with
  | None =>
      if isRequired then Some (ErrRequired name) else
      let env := match defValue with Some d => d | None => EmptyString end in
      option_map ErrValue (parseValue ty name env)
  | Some env => option_map ErrValue (parseValue ty name env)
  end.

Definition of_error (e : option rerror) : outcome :=
  match e with Some e => OErr e | None => ONil end.

(** A settable field: skipped without an [env] tag. *)
Definition read_tagged (tag : option string) (deftag : option string) (ty : T) : outcome :=
  match tag with Some tv => of_error (read_leaf tv deftag ty) | None => ONil end.

(** The loop of [Read] over fields: the first error or panic, in order. *)
Fixpoint first_out {A : Type} (g : A -> outcome) (l : list A) : outcome :=
  match l with
  | [] => ONil
  | x :: l' => match g x with ONil => first_out g l' | o => o end
  end.

(** One round of the loop of [Read], in a struct whose fields are
    addressable ([addr]) or not. A nil pointer is set to a new value,
    which panics unless the field is settable (exported and addressable);
    then a pointer is followed ([Elem] keeps addressability and the
    read-only mark of an unexported field). A value of struct kind is read
    recursively through [Addr] if [CanInterface], which panics when it is
    not addressable; any other value needs [CanSet]. *)
Fixpoint read_field (addr : bool) (f : field) : outcome :=
  match f with
  | FStruct exported fs =>
      if exported then (if addr then first_out (read_field true) fs else OPanic) else ONil
  | FLeaf exported tag deftag ty =>
      if exported && addr then read_tagged tag deftag ty else ONil
  | FPtrStruct exported isnil fs =>
      if isnil && negb (exported && addr) then OPanic
      else if exported then first_out (read_field true) fs else ONil
  | FPtrLeaf exported isnil tag deftag ty =>
      if isnil && negb (exported && addr) then OPanic
      else if exported then read_tagged tag deftag ty else ONil
  end.

(** [Read(root)]: a pointer is followed once, then the value must be a
    struct. *)
Definition Read (r : root) : outcome :=
  match r with
  | RPtrStruct fs => first_out (read_field true) fs
  | RStruct fs => first_out (read_field false) fs
  | ROther => OErr ErrUnexpectedType
  end.

(** The steps of [Read], depth first in declaration order: each field
    with an [env] tag it checks ([SLeaf], with that tag, the
    [env-default] tag and the type) and each place where it panics. *)
Inductive step := SLeaf (tv : string) (d : option string) (ty : T) | SPanic.

Definition tagged_steps (tag : option string) (deftag : option string) (ty : T) : list step :=
  match tag with Some tv => [SLeaf tv deftag ty] | None => [] end.

Fixpoint examined_field (addr : bool) (f : field) : list step :=
  match f with
  | FStruct exported fs =>
      if exported then (if addr then flat_map (examined_field true) fs else [SPanic]) else []
  | FLeaf exported tag deftag ty =>
      if exported && addr then tagged_steps tag deftag ty else []
  | FPtrStruct exported isnil fs =>
      if isnil && negb (exported && addr) then [SPanic]
      else if exported then flat_map (examined_field true) fs else []
  | FPtrLeaf exported isnil tag deftag ty =>
      if isnil && negb (exported && addr) then [SPanic]
      else if exported then tagged_steps tag deftag ty else []
  end.

Definition examined (addr : bool) (fs : list field) : list step :=
  flat_map (examined_field addr) fs.

(** What one step gives. *)
Definition step_out (x : step) : outcome :=
  match x with SLeaf tv d ty => of_error (read_leaf tv d ty) | SPanic => OPanic end.

(** Induction on fields, through the fields of struct values. *)
Section FieldInd.
Variable P : field -> Prop.
Hypothesis HS : forall exported fs, Forall P fs -> P (FStruct exported fs).
Hypothesis HL : forall exported tag deftag ty, P (FLeaf exported tag deftag ty).
Hypothesis HPS : forall exported isnil fs, Forall P fs -> P (FPtrStruct exported isnil fs).
Hypothesis HPL : forall exported isnil tag deftag ty, P (FPtrLeaf exported isnil tag deftag ty).

Fixpoint field_ind' (f : field) : P f :=
  let fix go (l : list field) : Forall P l :=
    match l with
    | [] => @List.Forall_nil _ P
    | x :: l' => @List.Forall_cons _ P x l' (field_ind' x) (go l')
    end in
  match f with
  | FStruct exported fs => HS exported fs (go fs)
  | FLeaf exported tag deftag ty => HL exported tag deftag ty
  | FPtrStruct exported isnil fs => HPS exported isnil fs (go fs)
  | FPtrLeaf exported isnil tag deftag ty => HPL exported isnil tag deftag ty
  end.
End FieldInd.

End Read.
End Env.

(** * Properties of the session store *)
Module StoreFacts.
Import Store.

Lemma wrap64_id (z : Z) : in_int64 z -> wrap64 z = z.
Proof.
  unfold in_int64, wrap64. intros Hz.
  rewrite Z.mod_small; lia.
Qed.

Lemma wrap64_le (z : Z) : - 2 ^ 63 <= z -> wrap64 z <= z.
Proof.
  unfold wrap64. intros Hz.
  pose proof (Z.mod_le (z + 2 ^ 63) (2 ^ 64)) as H.
  assert (0 < 2 ^ 64) by lia.
  specialize (H ltac:(lia) ltac:(lia)). lia.
Qed.

Section Facts.
Context {V : Type}.
Implicit Types (mc : @Memcached V) (k : string) (v : V).

Lemma Get_Some mc k now v :
  Get mc k now = Some v <->
  exists it, items mc !! k = Some it /\ now <= expireAt it /\ value it = v.
Proof.
  unfold Get. destruct (items mc !! k) as [it|]; split.
  - destruct (now >? expireAt it) eqn:E; intros H; inversion H; subst.
    exists it. split; [done|]. split; [lia|done].
  - intros (it' & Hit & Hle & Hv). inversion Hit; subst.
    destruct (now >? expireAt it') eqn:E; [lia|done].
  - discriminate.
  - intros (it' & Hit & _). discriminate.
Qed.

Lemma Set_admitted mc k v now :
  (inShutdown mc = false \/ is_Some (items mc !! k)) ->
  Set_ mc k v now =
  mkmc (<[k := mkcached v (wrap64 (now + ttlTimeout mc))]> (items mc))
       (ttlTimeout mc) (inShutdown mc).
Proof.
  unfold Set_. intros [H | [it H]]; rewrite H; [done|].
  destruct (inShutdown mc); done.
Qed.

Lemma Set_lookup_eq mc k v now :
  (inShutdown mc = false \/ is_Some (items mc !! k)) ->
  items (Set_ mc k v now) !! k = Some (mkcached v (wrap64 (now + ttlTimeout mc))).
Proof. intros H. rewrite Set_admitted by done. simpl. apply lookup_insert_eq. Qed.

End Facts.
End StoreFacts.

Module BackoffFacts.
Import Store.

Lemma iter_base_S (n : nat) (b : Z) :
  iter_base (S n) b = snd (nextInterval (iter_base n b) 0).
Proof. revert b. induction n as [|n IH]; intros b; [done|]. apply (IH _). Qed.

Lemma base_after_iter (n : nat) : base_after n = iter_base n Millisecond.
Proof.
  induction n as [|n IH]; [done|].
  rewrite iter_base_S. simpl. rewrite IH. done.
Qed.

Lemma intervals_nth (js : list Z) (b : Z) (n : nat) (i : Z) :
  draws_ok b js -> nth_error (intervals b js) n = Some i ->
  iter_base n b <= i < iter_base n b + iter_base n b / 10.
Proof.
  revert b n. induction js as [|j js IH]; intros b n Hok Hn.
  - destruct n; discriminate.
  - destruct Hok as [Hj Hok]. destruct n as [|n]; simpl in Hn |- *.
    + inversion Hn; subst. lia.
    + apply (IH _ n Hok Hn).
Qed.

Lemma base_after_closed (n : nat) :
  base_after n = Z.min (2 ^ Z.of_nat n * Millisecond) shutdownIntervalMax.
Proof.
  induction n as [|n IH].
  - done.
  - simpl base_after. rewrite IH. unfold nextInterval, shutdownIntervalMax, Millisecond.
    simpl snd. rewrite Nat2Z.inj_succ, Z.pow_succ_r by lia.
    assert (0 < 2 ^ Z.of_nat n) by (apply Z.pow_pos_nonneg; lia).
    destruct (Z.min _ _ * 2 >? 500 * 1000000) eqn:E; lia.
Qed.

End BackoffFacts.

(** * The claims about the session store *)
Module StoreClaims.
Import Store StoreFacts BackoffFacts.

(** C4 (counterexample): with [ttl = 2^63 - 1] nanoseconds and the clock at
    1 ns, the [int64] expiry [now + ttl] wraps to [-2^63], so [Get] right
    after [Set] already finds the entry expired and returns nil. *)
Lemma set_get_overflow_cex :
  let mc := Set_ (NewMemcached (2 ^ 63 - 1)) "k" 7%nat 1 in
  Get mc "k" 1 = None /\ Get mc "k" 1 <> Some 7%nat.
Proof. vm_compute. split; [reflexivity | discriminate]. Qed.

(** C4 (amended): [Get] returns the stored value exactly when the key is
    present and [now <= expire_at]; a [Set] admitted for [k] (store not
    draining or [k] present) with [ttl > 0] is followed by [Get] returning
    [v] at any time up to [now + ttl] provided [now + ttl] fits in [int64],
    and by [Get] returning absent at any time after [now + ttl], whether or
    not a sweep has run. *)
Theorem set_then_get {V : Type} (mc : @Memcached V) (k : string) (v : V)
    (now now' : Z) :
  in_int64 now -> 0 < ttlTimeout mc ->
  (inShutdown mc = false \/ is_Some (items mc !! k)) ->
  (forall (m : @Memcached V) k0 t0 v0, Get m k0 t0 = Some v0 <->
     exists it, items m !! k0 = Some it /\ t0 <= expireAt it /\ value it = v0) /\
  (now + ttlTimeout mc <= 2 ^ 63 - 1 -> now' <= now + ttlTimeout mc ->
   Get (Set_ mc k v now) k now' = Some v) /\
  (now + ttlTimeout mc < now' -> Get (Set_ mc k v now) k now' = None).
Proof.
  intros Hnow Httl Hadm. split; [|split].
  - intros. apply Get_Some.
  - intros Hfit Hle. apply Get_Some. eexists. split; [apply Set_lookup_eq, Hadm|].
    simpl. rewrite wrap64_id by (unfold in_int64 in *; lia). split; [lia|done].
  - intros Hlt. unfold Get. rewrite Set_lookup_eq by done. simpl.
    pose proof (wrap64_le (now + ttlTimeout mc)) as Hw.
    unfold in_int64 in Hnow.
    destruct (now' >? wrap64 (now + ttlTimeout mc)) eqn:E; [done|lia].
Qed.

Lemma set_then_get_witness :
  in_int64 0 /\ 0 < 20 /\
  (inShutdown (@NewMemcached nat 20) = false \/ is_Some (items (@NewMemcached nat 20) !! "k")) /\
  Get (Set_ (NewMemcached 20) "k" 7%nat 0) "k" 5 = Some 7%nat.
Proof.
  assert (H : in_int64 0) by (unfold in_int64; lia).
  split; [exact H|]. split; [lia|]. split; [left; reflexivity|].
  destruct (set_then_get (NewMemcached 20) "k" 7%nat 0 5 H ltac:(simpl; lia)
              (or_introl eq_refl)) as (_ & Hget & _).
  apply Hget; simpl; vm_compute; discriminate.
Defined.

(** C5: while the store is shutting down, [Set] with a key that is not
    present leaves the store unchanged, and no [Set] during drain adds a
    key; in every other case [Set] inserts or overwrites the entry of [k]
    with [expire_at = now + ttl] (computed in [int64]). *)
Theorem set_during_drain {V : Type} (mc : @Memcached V) (k : string) (v : V)
    (now : Z) :
  (inShutdown mc = true -> items mc !! k = None -> Set_ mc k v now = mc) /\
  (inShutdown mc = true -> dom (items (Set_ mc k v now)) = dom (items mc)) /\
  ((inShutdown mc = false \/ is_Some (items mc !! k)) ->
   Set_ mc k v now =
   mkmc (<[k := mkcached v (wrap64 (now + ttlTimeout mc))]> (items mc))
        (ttlTimeout mc) (inShutdown mc)).
Proof.
  split; [|split].
  - intros Hs Hk. unfold Set_. rewrite Hs, Hk. done.
  - intros Hs. destruct (items mc !! k) as [it|] eqn:Hk.
    + rewrite Set_admitted by (right; eauto). simpl.
      rewrite dom_insert_L. apply elem_of_dom_2 in Hk. set_solver.
    + unfold Set_. rewrite Hs, Hk. done.
  - apply Set_admitted.
Qed.

Lemma set_during_drain_witness :
  let mc := mkmc (∅ : gmap string (@cached nat)) 20 true in
  Set_ mc "k" 7%nat 0 = mc.
Proof.
  intros mc. apply (proj1 (set_during_drain mc "k" 7%nat 0)); reflexivity.
Defined.

(** C6 (counterexample): an entry set at time 0 with a TTL of 1 ns has
    expired at time 5 ([Get] hides it), yet [IsEmpty] stays false until a
    sweep removes it: neither [Get] nor [IsEmpty] removes anything. *)
Lemma isempty_no_lazy_removal_cex :
  let mc := Set_ (NewMemcached 1) "k" 7%nat 0 in
  Get mc "k" 5 = None /\ IsEmpty mc = false /\
  IsEmpty (cleanExpiredItems mc 5) = true.
Proof. vm_compute. auto. Qed.

(** C6 (amended): [IsEmpty] is true exactly when the map has no entry,
    expired or not ([Get] only hides expired entries and removes nothing),
    and after a sweep ([cleanExpiredItems], run by the reaper and by
    [Shutdown]) at time [now] it is true exactly when every entry had
    [expire_at < now]; so it is false while an unexpired entry exists. *)
Theorem isempty_after_sweep {V : Type} (mc : @Memcached V) (now : Z) :
  (IsEmpty mc = true <-> items mc = ∅) /\
  (IsEmpty (cleanExpiredItems mc now) = true <->
   map_Forall (fun _ it => expireAt it < now) (items mc)) /\
  (forall k it, items mc !! k = Some it -> now <= expireAt it ->
   IsEmpty mc = false /\ IsEmpty (cleanExpiredItems mc now) = false).
Proof.
  assert (Hsweep : IsEmpty (cleanExpiredItems mc now) = true <->
                   map_Forall (fun _ it => expireAt it < now) (items mc)).
  { unfold IsEmpty, cleanExpiredItems. simpl. rewrite bool_decide_eq_true.
    rewrite map_empty. setoid_rewrite map_lookup_filter_None.
    unfold map_Forall. split.
    - intros H k it Hk. destruct (H k) as [Hn | Hn]; [congruence|].
      specialize (Hn it Hk). simpl in Hn. lia.
    - intros H k. destruct (items mc !! k) as [it|] eqn:Hk; [|by left].
      right. intros x Hx. inversion Hx; subst. specialize (H k x Hk). simpl. lia. }
  split; [|split].
  - unfold IsEmpty. apply bool_decide_eq_true.
  - exact Hsweep.
  - intros k it Hk Hle. split.
    + unfold IsEmpty. apply bool_decide_eq_false. intros He.
      rewrite He, lookup_empty in Hk. discriminate.
    + apply not_true_is_false. intros E. apply Hsweep in E. specialize (E k it Hk). simpl in E. lia.
Qed.

Lemma isempty_after_sweep_witness :
  let mc := Set_ (NewMemcached 1) "k" 7%nat 0 in
  IsEmpty mc = false /\ IsEmpty (cleanExpiredItems mc 0) = false.
Proof.
  intros mc.
  apply (proj2 (proj2 (isempty_after_sweep mc 0)) "k" (mkcached 7%nat 1)).
  - reflexivity.
  - simpl. lia.
Defined.

(** C9: while the store is shutting down, [Set] on a key whose entry has
    expired but is still in the map overwrites it with a fresh
    [expire_at = now + ttl]: the presence test ignores expiry, so a session
    that [Get] reports absent is revived. *)
Theorem set_revives_expired_during_drain {V : Type} (mc : @Memcached V)
    (k : string) (it : @cached V) (v : V) (now : Z) :
  inShutdown mc = true -> items mc !! k = Some it -> expireAt it < now ->
  Get mc k now = None /\
  items (Set_ mc k v now) !! k = Some (mkcached v (wrap64 (now + ttlTimeout mc))).
Proof.
  intros Hs Hk Hexp. split.
  - unfold Get. rewrite Hk. destruct (now >? expireAt it) eqn:E; [done|lia].
  - apply Set_lookup_eq. right. eauto.
Qed.

Lemma set_revives_expired_during_drain_witness :
  let mc := mkmc (<["k" := mkcached 3%nat 10]> ∅) 20 true in
  items (Set_ mc "k" 7%nat 15) !! "k" = Some (mkcached 7%nat (wrap64 (15 + 20))).
Proof.
  intros mc.
  apply (proj2 (set_revives_expired_during_drain mc "k" (mkcached 3%nat 10) 7%nat 15
                  eq_refl eq_refl ltac:(simpl; lia))).
Defined.

(** C8 (counterexample): after nine rounds the base is capped at 500 ms,
    and a jitter of 1 ns then gives an interval of 500 ms + 1 ns. *)
Lemma backoff_interval_exceeds_cap_cex :
  let js := [0; 0; 0; 0; 0; 0; 0; 0; 0; 1] in
  draws_ok Millisecond js /\
  nth_error (intervals Millisecond js) 9 = Some (shutdownIntervalMax + 1) /\
  shutdownIntervalMax < shutdownIntervalMax + 1.
Proof. vm_compute. repeat split; try lia; discriminate. Qed.

(** C8 (amended): the base starts at 1 ms, doubles each round and is
    capped at 500 ms; round [n] sleeps the base plus a jitter below a tenth
    of it, so every interval lies in [[base, 1.1 * base)] and stays below
    550 ms; the cap bounds the base, not the interval. *)
Theorem backoff_interval_bounds (js : list Z) (n : nat) (i : Z) :
  draws_ok Millisecond js -> nth_error (intervals Millisecond js) n = Some i ->
  base_after n = Z.min (2 ^ Z.of_nat n * Millisecond) shutdownIntervalMax /\
  base_after n <= i < base_after n + base_after n / 10 /\
  Millisecond <= i < 550 * Millisecond.
Proof.
  intros Hok Hn. pose proof (intervals_nth js Millisecond n i Hok Hn) as Hi.
  rewrite <- base_after_iter in Hi. pose proof (base_after_closed n) as Hb.
  split; [exact Hb|]. split; [exact Hi|].
  assert (0 < 2 ^ Z.of_nat n) by (apply Z.pow_pos_nonneg; lia).
  unfold shutdownIntervalMax, Millisecond in *.
  assert (base_after n / 10 <= 50000000).
  { apply Z.div_le_upper_bound; lia. }
  lia.
Qed.

Lemma backoff_interval_bounds_witness :
  let js := [0; 0; 0; 0; 0; 0; 0; 0; 0; 1] in
  Millisecond <= shutdownIntervalMax + 1 < 550 * Millisecond.
Proof.
  intros js.
  apply (proj2 (proj2 (backoff_interval_bounds js 9 (shutdownIntervalMax + 1)
                         ltac:(vm_compute; repeat split; first [discriminate | reflexivity])
                         eq_refl))).
Defined.

End StoreClaims.

(** * Properties of the engine *)
Module CalcFacts.
Import BigFloat FloatConv Calc.

Lemma frac_den (x : t) : 0 < snd (frac x).
Proof.
  unfold frac. destruct (fm x) as [|m e]; simpl; [lia|].
  destruct (0 <=? e) eqn:E; simpl; [lia|].
  apply Z.pow_pos_nonneg; lia.
Qed.

(** The numerator is zero exactly for a zero, and negative exactly for a
    negative non-zero. *)
Lemma frac_num (x : t) :
  (fst (frac x) = 0 <-> sign x = 0) /\
  (fst (frac x) < 0 <-> neg x = true /\ sign x <> 0).
Proof.
  unfold frac, sign. destruct (fm x) as [|m e]; simpl.
  - split; [tauto|]. split; [lia|tauto].
  - assert (0 < Z.pos m) by lia.
    destruct (0 <=? e) eqn:E;
      [apply Z.leb_le in E; assert (0 < 2 ^ e) by (apply Z.pow_pos_nonneg; lia)|];
      destruct (neg x); simpl; repeat split; intros; try nia; try lia;
      try discriminate; intuition (try nia; try discriminate).
Qed.

Lemma parse_prec (s : string) (b : t) : parse s = Some b -> prec b = 64.
Proof.
  unfold parse. repeat case_match; intros Hp; inversion Hp; subst; try reflexivity;
  unfold quo; repeat case_match; reflexivity.
Qed.

(** The numerator of a non-zero value has the sign of its sign bit. *)
Lemma frac_sign (x : t) :
  sign x <> 0 -> if neg x then fst (frac x) < 0 else 0 < fst (frac x).
Proof.
  intros Hs. destruct (frac_num x) as [H0 Hn].
  assert (fst (frac x) <> 0) by (intros E; apply H0 in E; done).
  destruct (neg x).
  - apply Hn. done.
  - assert (~ fst (frac x) < 0) by (intros E; apply Hn in E; destruct E; discriminate).
    lia.
Qed.

(** A product or quotient with numerator [n], sign bit [xorb] of the
    operands', after the zero normalization, is the [round64] of [n / d]. *)
Lemma xor_sign_rounded (x y : t) (n d : Z) :
  (n = 0 \/ (sign x <> 0 /\ sign y <> 0 /\
             (n < 0 <-> fst (frac x) * fst (frac y) < 0))) ->
  (if sign (mk 64 (xorb (neg x) (neg y)) (round_mag 64 (Z.abs n) d)) =? 0
   then zero64 else mk 64 (xorb (neg x) (neg y)) (round_mag 64 (Z.abs n) d))
  = round64 (n, d).
Proof.
  intros Hn. unfold round64.
  destruct (Z.eqb_spec n 0) as [H0|H0].
  - rewrite H0. reflexivity.
  - destruct Hn as [Hn|(Hx & Hy & Hn)]; [lia|].
    assert (Hs : xorb (neg x) (neg y) = (n <? 0)).
    { apply frac_sign in Hx. apply frac_sign in Hy.
      destruct (neg x), (neg y); simpl; symmetry;
        [apply Z.ltb_ge | apply Z.ltb_lt | apply Z.ltb_lt | apply Z.ltb_ge];
        rewrite ?Hn; nia. }
    rewrite Hs. reflexivity.
Qed.

(** A sum or difference with numerator [n], after the zero
    normalization, is the [round64] of [n / d]. *)
Lemma addsub_rounded (n d : Z) (zneg : bool) :
  (if sign (if n =? 0 then mk 64 zneg Zero
            else mk 64 (n <? 0) (round_mag 64 (Z.abs n) d)) =? 0
   then zero64
   else if n =? 0 then mk 64 zneg Zero
        else mk 64 (n <? 0) (round_mag 64 (Z.abs n) d))
  = round64 (n, d).
Proof.
  unfold round64. destruct (Z.eqb_spec n 0) as [->|Hn]; reflexivity.
Qed.

(** ** Digits of the decimal forms stay below 10 *)

Lemma digits_rev_ok (fuel : nat) (n : Z) : digits_ok (digits_rev fuel n).
Proof.
  unfold digits_ok. revert n. induction fuel as [|fuel IH]; intros n; simpl; [constructor|].
  destruct (n <=? 0); constructor; [|apply IH].
  assert (0 <= n mod 10 < 10) by (apply Z.mod_pos_bound; lia). lia.
Qed.

Lemma drop_zeros_ok (l : list nat) : digits_ok l -> digits_ok (drop_zeros l).
Proof.
  unfold digits_ok. induction l as [|a l IH]; simpl; [done|].
  intros H. inversion H; subst. destruct a; [apply IH; done|done].
Qed.

Lemma trim_ok (x : decimal) : digits_ok (dmant x) -> digits_ok (dmant (trim x)).
Proof.
  unfold trim, digits_ok. simpl. intros H.
  apply Forall_rev, drop_zeros_ok, Forall_rev, H.
Qed.

Lemma dinit_ok (m s : Z) : digits_ok (dmant (dinit m s)).
Proof.
  unfold dinit. destruct (if 0 <=? s then _ else _) as [n k].
  apply trim_ok. simpl. unfold utoa, digits_ok. apply Forall_rev, digits_rev_ok.
Qed.

Lemma round_down_ok (x : decimal) (n : nat) :
  digits_ok (dmant x) -> digits_ok (dmant (round_down x n)).
Proof.
  unfold round_down. intros H. destruct (_ <=? n)%nat; [done|].
  apply trim_ok. simpl. apply Forall_take, H.
Qed.

Lemma skip_nines_spec (mant : list nat) (n k : nat) :
  skip_nines mant n = S k -> (nth k mant O < 9)%nat.
Proof.
  induction n as [|n IH]; intros Hk; cbn [skip_nines] in Hk; [discriminate|].
  destruct (Nat.leb 9 (nth n mant O)) eqn:E; [apply IH, Hk|].
  inversion Hk; subst. apply Nat.leb_gt in E. lia.
Qed.

Lemma round_up_ok (x : decimal) (n : nat) :
  digits_ok (dmant x) -> digits_ok (dmant (round_up x n)).
Proof.
  unfold round_up, digits_ok. intros H. destruct (_ <=? n)%nat; [done|].
  destruct (skip_nines (dmant x) n) as [|k] eqn:E; simpl.
  - constructor; [lia|constructor].
  - apply Forall_app. split; [apply Forall_take, H|].
    constructor; [|constructor]. apply skip_nines_spec in E. lia.
Qed.

Lemma dround_ok (x : decimal) (n : nat) :
  digits_ok (dmant x) -> digits_ok (dmant (dround x n)).
Proof.
  unfold dround. intros H. destruct (_ <=? n)%nat; [done|].
  destruct (should_round_up x n); [apply round_up_ok|apply round_down_ok]; done.
Qed.

Lemma shortest_walk_ok (d lower upper : decimal) (inc : bool) (ms : list nat) (i : nat) :
  digits_ok (dmant d) -> digits_ok (dmant (shortest_walk d lower upper inc ms i)).
Proof.
  revert i. induction ms as [|m ms IH]; intros i H; simpl; [done|].
  repeat case_match;
    first [apply dround_ok | apply round_down_ok | apply round_up_ok | apply IH]; done.
Qed.

Lemma round_shortest_ok (d : decimal) (x : t) :
  digits_ok (dmant d) -> digits_ok (dmant (round_shortest d x)).
Proof.
  unfold round_shortest. intros H. destruct (dmant d) eqn:E; [rewrite E; constructor|].
  destruct (fm x); [rewrite E; done|]. apply shortest_walk_ok. rewrite E. done.
Qed.

(** ** The shape of [text]: signs, then a nonempty run of digits, then
    at most one separator *)

Lemma digit_char_plain (n : nat) : (n < 10)%nat -> plain (digit_char n).
Proof.
  intros H.
  do 10 (destruct n as [|n];
         [unfold plain, digit_char; split; intros E; vm_compute in E; discriminate E|]).
  lia.
Qed.

Lemma dat_ok (d : decimal) (i : Z) : digits_ok (dmant d) -> (dat d i < 10)%nat.
Proof.
  unfold dat, digits_ok. intros H. destruct (_ && _) eqn:E; [|lia].
  apply andb_true_iff in E as [E1 E2]. apply Z.leb_le in E1. apply Z.ltb_lt in E2.
  rewrite List.Forall_forall in H. apply H, nth_In. lia.
Qed.

Lemma map_digit_plain (l : list nat) : digits_ok l -> Forall plain (map digit_char l).
Proof.
  unfold digits_ok. rewrite !List.Forall_forall. intros H x Hx.
  apply in_map_iff in Hx as [k [<- Hk]]. apply digit_char_plain, H, Hk.
Qed.

Lemma repeat_zero_plain (k : nat) : Forall plain (repeat "0"%char k).
Proof.
  induction k; simpl; constructor; [split; discriminate|done].
Qed.

Lemma count_plain (l : list ascii) : Forall plain l -> count_occ ascii_dec l "."%char = O.
Proof.
  induction l as [|a l IH]; intros H; simpl; [done|].
  inversion H as [|? ? [Ha _] Hl]; subst.
  destruct (ascii_dec a "."%char); [contradiction|]. apply IH, Hl.
Qed.

Lemma intpart_nonempty (l : list nat) (e : Z) :
  0 < e ->
  map digit_char (firstn (Z.to_nat (Z.min (Z.of_nat (length l)) e)) l)
  ++ repeat "0"%char (Z.to_nat (e - Z.min (Z.of_nat (length l)) e)) <> [].
Proof.
  intros He E. apply app_eq_nil in E as [E1 E2].
  destruct (Z.to_nat (e - Z.min (Z.of_nat (length l)) e)) eqn:Ek; [|discriminate].
  replace (Z.min (Z.of_nat (length l)) e) with e in E1 by lia.
  apply map_eq_nil in E1. destruct l as [|a l].
  - simpl in Ek. lia.
  - destruct (Z.to_nat e) eqn:Ee; [lia|discriminate].
Qed.

Lemma fmtF_shape (p : Z) (d : decimal) :
  digits_ok (dmant d) ->
  exists c0 r0 fr, fmtF p d = (c0 :: r0) ++ fr /\ Forall plain (c0 :: r0)
                   /\ (count_occ ascii_dec fr "."%char <= 1)%nat.
Proof.
  intros H. unfold fmtF.
  set (ip := if 0 <? dexp d then _ else _).
  assert (Hip : ip <> [] /\ Forall plain ip).
  { subst ip. destruct (0 <? dexp d) eqn:E.
    - apply Z.ltb_lt in E. split; [apply intpart_nonempty, E|].
      apply Forall_app. split; [|apply repeat_zero_plain].
      apply map_digit_plain, Forall_take, H.
    - split; [discriminate|]. constructor; [split; discriminate|constructor]. }
  destruct Hip as [Hne Hpl]. destruct ip as [|c0 r0]; [done|].
  eexists c0, r0, _. split; [reflexivity|]. split; [done|].
  destruct (0 <? p); simpl; [|lia].
  rewrite count_plain; [lia|].
  rewrite List.Forall_forall. intros x Hx.
  apply in_map_iff in Hx as [i [<- _]]. apply digit_char_plain, dat_ok, H.
Qed.

Lemma text_shape (x : t) :
  exists sgn c0 r0 fr,
    list_ascii_of_string (text x) = sgn ++ (c0 :: r0) ++ fr
    /\ Forall (eq "-"%char) sgn /\ Forall plain (c0 :: r0)
    /\ (count_occ ascii_dec fr "."%char <= 1)%nat.
Proof.
  unfold text. rewrite list_ascii_of_string_of_list_ascii.
  set (d := round_shortest _ x).
  assert (Hd : digits_ok (dmant d)).
  { subst d. apply round_shortest_ok. destruct (fm x); [constructor|apply dinit_ok]. }
  destruct (fmtF_shape (Z.max (Z.of_nat (length (dmant d)) - dexp d) 0) d Hd)
    as (c0 & r0 & fr & E & Hpl & Hc).
  exists (if neg x then ["-"%char] else []), c0, r0, fr.
  rewrite E. split; [reflexivity|]. split; [|done].
  destruct (neg x); repeat constructor.
Qed.

(** ** The display invariant *)

Lemma list_ascii_append (s1 s2 : string) :
  list_ascii_of_string (String.append s1 s2)
  = list_ascii_of_string s1 ++ list_ascii_of_string s2.
Proof. induction s1 as [|a s1 IH]; cbn; [reflexivity|]. rewrite <- IH. reflexivity. Qed.

Lemma count_dashes (sgn : list ascii) :
  Forall (eq "-"%char) sgn -> count_occ ascii_dec sgn "."%char = O.
Proof.
  induction 1 as [|ch sgn Hch _ IH]; simpl; [done|].
  subst ch. destruct (ascii_dec _ _); [discriminate|apply IH].
Qed.

Lemma first_plain_kept (sgn r t : list ascii) (c0 a b : ascii) :
  sgn ++ c0 :: r = t ++ [a; b] -> Forall (eq "-"%char) sgn ->
  a <> "-"%char -> c0 <> a -> In c0 t.
Proof.
  revert t. induction sgn as [|s sgn IH]; intros t E Hs Ha Hc; simpl in E.
  - destruct t as [|x t]; simpl in E; inversion E; subst; [done|left; done].
  - inversion Hs as [|? ? Hss Hsgn]; subst.
    destruct t as [|x t]; simpl in E; inversion E; subst; [done|].
    right. eapply IH; eauto.
Qed.

Lemma display_ok_text (x : t) : display_ok (trim_suffix (text x) ".0").
Proof.
  destruct (text_shape x) as (sgn & c0 & r0 & fr & E & Hs & Hpl & Hc).
  assert (Hc0 : plain c0) by (inversion Hpl; done).
  assert (Hcnt : (count_occ ascii_dec (list_ascii_of_string (text x)) "."%char <= 1)%nat).
  { rewrite E, !List.count_occ_app, count_dashes, count_plain by done. simpl. lia. }
  unfold trim_suffix, display_ok, dot_count.
  set (l := list_ascii_of_string (text x)) in *.
  change (String.length ".0") with 2%nat.
  destruct (_ && _) eqn:Et.
  - apply andb_true_iff in Et as [_ Et]. apply String.eqb_eq in Et.
    apply (f_equal list_ascii_of_string) in Et.
    rewrite list_ascii_of_string_of_list_ascii in Et. simpl in Et.
    pose proof (List.firstn_skipn (length l - 2) l) as Hl.
    rewrite Et in Hl. rewrite list_ascii_of_string_of_list_ascii.
    split.
    + rewrite <- Hl, List.count_occ_app in Hcnt. simpl in Hcnt. lia.
    + apply List.Exists_exists. exists c0. split; [|apply (proj2 Hc0)].
      apply (first_plain_kept sgn (r0 ++ fr) _ c0 "."%char "0"%char);
        [|done|discriminate|apply (proj1 Hc0)].
      rewrite Hl. simpl in E. rewrite <- E. reflexivity.
  - split; [done|]. fold l. rewrite E. apply List.Exists_app. right. left. apply (proj2 Hc0).
Qed.

Lemma display_ok_zero : display_ok "0".
Proof. split; [vm_compute; lia|]. left. discriminate. Qed.

Lemma display_ok_nonempty (s : string) : display_ok s -> s <> ""%string.
Proof. intros [_ H] ->. inversion H. Qed.

Lemma contains_dot_count (s : string) : contains_dot s = false -> dot_count s = O.
Proof.
  unfold contains_dot, dot_count. induction (list_ascii_of_string s) as [|a l IH];
    simpl; [done|].
  intros H. apply orb_false_iff in H as [Ha Hl].
  destruct (ascii_dec a "."%char) as [->|]; [discriminate|]. apply IH, Hl.
Qed.

Lemma display_ok_append (s : string) (ch : ascii) :
  display_ok s -> ch <> "-"%char -> (ch <> "."%char \/ dot_count s = O) ->
  display_ok (String.append s (String ch EmptyString)).
Proof.
  unfold display_ok, dot_count. rewrite list_ascii_append. simpl.
  intros [Hc He] Hch Hdot. split.
  - rewrite List.count_occ_app. simpl.
    destruct (ascii_dec ch "."%char); destruct Hdot; try contradiction; lia.
  - apply List.Exists_app. left. apply He.
Qed.

Lemma rune_digit_plain (r : Z) :
  48 <= r <= 57 -> plain (ascii_of_nat (Z.to_nat r)).
Proof.
  intros Hr. split; intros E; apply (f_equal nat_of_ascii) in E;
    rewrite nat_ascii_embedding in E by lia.
  - change (nat_of_ascii "."%char) with 46%nat in E. lia.
  - change (nat_of_ascii "-"%char) with 45%nat in E. lia.
Qed.

Lemma ProcessOperand_display_ok (c : Calculator) (r : Z) :
  display_ok (Display c) -> display_ok (Display (snd (ProcessOperand c r))).
Proof.
  intros H. unfold ProcessOperand.
  destruct (negb _) eqn:Eg; [done|].
  apply negb_false_iff, orb_true_iff in Eg.
  set (c1 := if is_sentinel (Display c) then reset c else c).
  assert (H1 : display_ok (Display c1) /\ (contains_dot (Display c) = false -> dot_count (Display c1) = O)).
  { subst c1. destruct (is_sentinel _); [split; [apply display_ok_zero|done]|].
    split; [done|apply contains_dot_count]. }
  set (c2 := match Operator c1, Operand1 c1 with Some _, None => _ | _, _ => c1 end).
  assert (H2 : display_ok (Display c2) /\ (contains_dot (Display c) = false -> dot_count (Display c2) = O)).
  { subst c2. destruct (Operator c1), (Operand1 c1); try done.
    split; [apply display_ok_zero|done]. }
  destruct H2 as [H2 H2d].
  destruct (String.eqb (Display c2) "0" && negb (r =? 46)) eqn:E; simpl.
  - apply andb_true_iff in E as [_ E]. apply negb_true_iff, Z.eqb_neq in E.
    destruct Eg as [Eg|Eg]; [|apply andb_true_iff in Eg as [Eg _]; lia].
    apply andb_true_iff in Eg as [E1 E2]. apply Z.leb_le in E1, E2.
    destruct (rune_digit_plain r) as [Hd Hm]; [lia|].
    split; [unfold dot_count; simpl; destruct (ascii_dec _ _); [contradiction|lia]|].
    left. done.
  - unfold rune_string. destruct Eg as [Eg|Eg].
    + apply andb_true_iff in Eg as [E1 E2]. apply Z.leb_le in E1, E2.
      destruct (rune_digit_plain r) as [Hd Hm]; [lia|].
      apply display_ok_append; auto.
    + apply andb_true_iff in Eg as [E1 E2]. apply Z.eqb_eq in E1. subst r.
      apply negb_true_iff in E2.
      apply display_ok_append; [done| |right; apply H2d, E2].
      simpl. discriminate.
Qed.

Lemma display_ok_strip (rest : string) :
  display_ok (String "-"%char rest) -> display_ok rest.
Proof.
  unfold display_ok, dot_count. simpl. intros [Hc He]. split.
  - done.
  - inversion He; [contradiction|done].
Qed.

Lemma display_ok_dash (s : string) : display_ok s -> display_ok (String "-"%char s).
Proof.
  unfold display_ok, dot_count. simpl. intros [Hc He]. split.
  - done.
  - right. done.
Qed.

Lemma calculate_display_ok (c : Calculator) :
  display_ok (Display c) -> display_ok (Display (snd (calculate c))).
Proof.
  intros H. unfold calculate.
  destruct (Operand1 c); [|done]. destruct (parse (Display c)); [|done].
  simpl. destruct (Operator c); [|done].
  destruct (compute _ _ _); [done|]. apply display_ok_text.
Qed.

Lemma ProcessOperator_display_ok (c : Calculator) (r : Z) :
  display_ok (Display c) -> display_ok (Display (snd (ProcessOperator c r))).
Proof.
  intros H. unfold ProcessOperator.
  destruct (r =? 67); [apply display_ok_zero|].
  destruct (r =? 84).
  { destruct (String.eqb (Display c) "0"); [done|].
    revert H. destruct (Display c) as [|ch rest]; intros H;
      [apply display_ok_nonempty in H; done|].
    destruct (Ascii.eqb ch "-"%char) eqn:E.
    - apply Ascii.eqb_eq in E. subst ch. apply display_ok_strip, H.
    - pose proof (display_ok_dash _ H) as Hd.
      destruct ch as [[] [] [] [] [] [] [] []];
        first [exact Hd | vm_compute in E; discriminate E]. }
  destruct (r =? 61); [apply calculate_display_ok, H|].
  destruct (negb _ || _); [done|].
  destruct (parse (Display c)); done.
Qed.

Lemma reachable_display_ok (c : Calculator) : reachable c -> display_ok (Display c).
Proof.
  induction 1.
  - apply display_ok_zero.
  - apply ProcessOperand_display_ok; done.
  - apply ProcessOperator_display_ok; done.
Qed.

(** ** The shape of the display *)

Lemma split_digits_app (a b : list ascii) :
  Forall (fun c => is_digit c = true) a ->
  match b with c :: _ => is_digit c = false | [] => True end ->
  split_digits (a ++ b) = (a, b).
Proof.
  induction a as [|x a IH]; intros Ha Hb; simpl.
  - destruct b as [|c b]; simpl; [done|]. rewrite Hb. done.
  - inversion Ha as [|? ? Hx Ha']; subst. rewrite Hx, IH by done. done.
Qed.

Lemma split_digits_spec (l : list ascii) :
  l = fst (split_digits l) ++ snd (split_digits l) /\
  Forall (fun c => is_digit c = true) (fst (split_digits l)) /\
  match snd (split_digits l) with c :: _ => is_digit c = false | [] => True end.
Proof.
  induction l as [|x l IH]; simpl; [auto|].
  destruct (is_digit x) eqn:E.
  - destruct (split_digits l) as [a b]. simpl in *. destruct IH as (Hl & Ha & Hb).
    split; [rewrite Hl at 1; done|]. split; [constructor; done|done].
  - simpl. auto.
Qed.

Lemma body_shape_iff (l : list ascii) :
  body_shape l = true <->
  exists ip fp, l = ip ++ fp /\ ip <> [] /\ Forall (fun c => is_digit c = true) ip /\
    (fp = [] \/ exists ds, fp = "."%char :: ds /\ Forall (fun c => is_digit c = true) ds).
Proof.
  split.
  - unfold body_shape. pose proof (split_digits_spec l) as (E & Hip & Hr).
    destruct (split_digits l) as [ip rest]. simpl in *.
    intros H. apply andb_true_iff in H as [H1 H2].
    exists ip, rest. split; [done|]. split; [destruct ip; done|]. split; [done|].
    destruct rest as [|c r]; [left; done|]. right.
    destruct c as [[] [] [] [] [] [] [] []]; try discriminate H2.
    exists r. split; [reflexivity|]. apply List.Forall_forall. intros x Hx.
    apply (proj1 (forallb_forall _ _) H2 x Hx).
  - intros (ip & fp & -> & Hne & Hip & Hfp). unfold body_shape.
    rewrite split_digits_app; [| done | destruct Hfp as [-> | (ds & -> & _)]; reflexivity].
    destruct ip; [done|]. simpl. destruct Hfp as [-> | (ds & -> & Hds)]; [done|].
    simpl. apply forallb_forall. intros x Hx. rewrite List.Forall_forall in Hds.
    apply Hds, Hx.
Qed.

Lemma display_shape_iff (s : string) :
  display_shape s = true <-> shape_l (list_ascii_of_string s).
Proof.
  unfold shape_l. destruct (list_ascii_of_string s) as [|c r] eqn:E.
  - unfold display_shape. rewrite E. split; [intros H; vm_compute in H; discriminate H|].
    intros (sg & ip & fp & Hl & _ & Hne & _).
    destruct sg, ip; try done; discriminate Hl.
  - destruct (ascii_dec c "-"%char) as [->|Hc].
    + unfold display_shape. rewrite E, body_shape_iff. split.
      * intros (ip & fp & -> & Hne & Hip & Hfp). exists ["-"%char], ip, fp. auto.
      * intros (sg & ip & fp & Hl & [-> | ->] & Hne & Hip & Hfp).
        -- destruct ip as [|d ip]; [done|]. simpl in Hl. inversion Hl; subst.
           inversion Hip as [|? ? Hd _]. discriminate Hd.
        -- simpl in Hl. inversion Hl; subst. exists ip, fp. auto.
    + assert (Hm : display_shape s = body_shape (c :: r)).
      { unfold display_shape. rewrite E.
        destruct c as [[] [] [] [] [] [] [] []]; first [reflexivity | exfalso; apply Hc; reflexivity]. }
      rewrite Hm, body_shape_iff. split.
      * intros (ip & fp & Hl & Hne & Hip & Hfp). exists [], ip, fp. auto.
      * intros (sg & ip & fp & Hl & [-> | ->] & Hne & Hip & Hfp).
        -- exists ip, fp. auto.
        -- simpl in Hl. inversion Hl. contradiction.
Qed.

Lemma shape_digit (ch : ascii) : is_digit ch = true -> shape_l [ch].
Proof. intros H. exists [], [ch], []. split; [done|]. split; [left; done|]. auto. Qed.

Lemma shape_snoc_digit (l : list ascii) (ch : ascii) :
  shape_l l -> is_digit ch = true -> shape_l (l ++ [ch]).
Proof.
  intros (sg & ip & fp & -> & Hsg & Hne & Hip & Hfp) Hch.
  destruct Hfp as [-> | (ds & -> & Hds)].
  - exists sg, (ip ++ [ch]), []. rewrite !app_nil_r, <- app_assoc.
    split; [done|]. split; [done|]. split; [destruct ip; done|].
    split; [apply Forall_app; auto|]. left; done.
  - exists sg, ip, ("."%char :: ds ++ [ch]). rewrite <- !app_assoc. simpl.
    split; [done|]. split; [done|]. split; [done|]. split; [done|].
    right. exists (ds ++ [ch]). split; [done|]. apply Forall_app; auto.
Qed.

Lemma shape_snoc_dot (l : list ascii) :
  shape_l l -> count_occ ascii_dec l "."%char = O -> shape_l (l ++ ["."%char]).
Proof.
  intros (sg & ip & fp & -> & Hsg & Hne & Hip & Hfp) Hc.
  destruct Hfp as [-> | (ds & -> & Hds)].
  - exists sg, ip, ["."%char]. rewrite app_nil_r, <- app_assoc.
    split; [done|]. split; [done|]. split; [done|]. split; [done|].
    right. exists []. auto.
  - rewrite !List.count_occ_app in Hc. simpl in Hc. lia.
Qed.

Lemma shape_strip (l : list ascii) : shape_l ("-"%char :: l) -> shape_l l.
Proof.
  intros (sg & ip & fp & Hl & [-> | ->] & Hne & Hip & Hfp).
  - destruct ip as [|d ip]; [done|]. simpl in Hl. inversion Hl; subst.
    inversion Hip as [|? ? Hd _]. discriminate Hd.
  - simpl in Hl. inversion Hl; subst. exists [], ip, fp. auto.
Qed.

Lemma shape_dash (ch : ascii) (l : list ascii) :
  shape_l (ch :: l) -> ch <> "-"%char -> shape_l ("-"%char :: ch :: l).
Proof.
  intros (sg & ip & fp & Hl & [-> | ->] & Hne & Hip & Hfp) Hch.
  - exists ["-"%char], ip, fp. rewrite Hl. auto.
  - simpl in Hl. inversion Hl. contradiction.
Qed.

Lemma digit_char_digit (n : nat) : (n < 10)%nat -> is_digit (digit_char n) = true.
Proof. intros H. do 10 (destruct n as [|n]; [reflexivity|]). lia. Qed.

Lemma map_digit_digits (l : list nat) :
  digits_ok l -> Forall (fun c => is_digit c = true) (map digit_char l).
Proof.
  unfold digits_ok. rewrite !List.Forall_forall. intros H x Hx.
  apply in_map_iff in Hx as [k [<- Hk]]. apply digit_char_digit, H, Hk.
Qed.

Lemma fmtF_digits (p : Z) (d : decimal) :
  digits_ok (dmant d) ->
  exists ip fp, fmtF p d = ip ++ fp /\ ip <> [] /\
    Forall (fun c => is_digit c = true) ip /\
    (fp = [] \/ exists ds, fp = "."%char :: ds /\ Forall (fun c => is_digit c = true) ds).
Proof.
  intros H. unfold fmtF.
  set (ip := if 0 <? dexp d then _ else _).
  assert (Hip : ip <> [] /\ Forall (fun c => is_digit c = true) ip).
  { subst ip. destruct (0 <? dexp d) eqn:E.
    - apply Z.ltb_lt in E. split; [apply intpart_nonempty, E|].
      apply Forall_app. split.
      + apply map_digit_digits, Forall_take, H.
      + apply List.Forall_forall. intros x Hx. apply repeat_spec in Hx. subst. reflexivity.
    - split; [discriminate|]. constructor; [reflexivity|constructor]. }
  destruct Hip as [Hne Hd].
  eexists ip, _. split; [reflexivity|]. split; [done|]. split; [done|].
  destruct (0 <? p); [right|left; done].
  eexists. split; [reflexivity|].
  apply List.Forall_forall. intros x Hx.
  apply in_map_iff in Hx as [i [<- _]]. apply digit_char_digit, dat_ok, H.
Qed.

Lemma text_shape_l (x : t) : shape_l (list_ascii_of_string (text x)).
Proof.
  unfold text. rewrite list_ascii_of_string_of_list_ascii.
  set (d := round_shortest _ x).
  assert (Hd : digits_ok (dmant d)).
  { subst d. apply round_shortest_ok. destruct (fm x); [constructor|apply dinit_ok]. }
  destruct (fmtF_digits (Z.max (Z.of_nat (length (dmant d)) - dexp d) 0) d Hd)
    as (ip & fp & E & Hne & Hip & Hfp).
  exists (if neg x then ["-"%char] else []), ip, fp. rewrite E.
  split; [reflexivity|]. split; [destruct (neg x); auto|]. auto.
Qed.

Lemma trim_dot_zero (sg ip fp t : list ascii) :
  sg ++ ip ++ fp = t ++ ["."%char; "0"%char] -> (sg = [] \/ sg = ["-"%char]) ->
  Forall (fun c => is_digit c = true) ip ->
  (fp = [] \/ exists ds, fp = "."%char :: ds /\ Forall (fun c => is_digit c = true) ds) ->
  t = sg ++ ip.
Proof.
  intros E Hsg Hip Hfp.
  destruct Hfp as [-> | (ds & -> & Hds)].
  - exfalso. rewrite app_nil_r in E.
    assert (Hin : In "."%char (sg ++ ip)) by (rewrite E; apply in_or_app; right; left; done).
    apply in_app_or in Hin as [Hin|Hin].
    + destruct Hsg as [-> | ->]; [done|]. destruct Hin as [Hin|[]]. discriminate Hin.
    + rewrite List.Forall_forall in Hip. specialize (Hip _ Hin). discriminate Hip.
  - induction ds as [|x ds _] using rev_ind.
    + exfalso.
      assert (E' : (sg ++ ip) ++ ["."%char] = (t ++ ["."%char]) ++ ["0"%char])
        by (rewrite <- !app_assoc; exact E).
      apply app_inj_tail in E' as [_ E']. discriminate E'.
    + assert (E' : (sg ++ ip ++ "."%char :: ds) ++ [x] = (t ++ ["."%char]) ++ ["0"%char])
        by (rewrite <- !app_assoc; exact E).
      apply app_inj_tail in E' as [E' _].
      destruct ds as [|y ds _] using rev_ind.
      * assert (E'' : (sg ++ ip) ++ ["."%char] = t ++ ["."%char])
          by (rewrite <- !app_assoc; exact E').
        apply app_inj_tail in E'' as [E'' _]. done.
      * exfalso.
        assert (E'' : (sg ++ ip ++ "."%char :: ds) ++ [y] = t ++ ["."%char])
          by (rewrite <- !app_assoc; exact E').
        apply app_inj_tail in E'' as [_ ->].
        apply Forall_app in Hds as [Hds _]. apply Forall_app in Hds as [_ Hds].
        inversion Hds as [|? ? Hy _]. discriminate Hy.
Qed.

Lemma display_shape_text (x : t) :
  shape_l (list_ascii_of_string (trim_suffix (text x) ".0")).
Proof.
  unfold trim_suffix.
  set (l := list_ascii_of_string (text x)).
  change (String.length ".0") with 2%nat.
  destruct (_ && _) eqn:Et.
  - apply andb_true_iff in Et as [_ Et]. apply String.eqb_eq in Et.
    apply (f_equal list_ascii_of_string) in Et.
    rewrite list_ascii_of_string_of_list_ascii in Et. simpl in Et.
    pose proof (List.firstn_skipn (length l - 2) l) as Hl.
    rewrite Et in Hl. rewrite list_ascii_of_string_of_list_ascii.
    destruct (text_shape_l x) as (sg & ip & fp & E & Hsg & Hne & Hip & Hfp).
    fold l in E.
    rewrite (trim_dot_zero sg ip fp (firstn (length l - 2) l)).
    + exists sg, ip, []. rewrite app_nil_r. repeat split; auto.
    + rewrite <- E. symmetry. exact Hl.
    + done.
    + done.
    + done.
  - fold l. apply text_shape_l.
Qed.

Lemma rune_digit_is_digit (r : Z) :
  48 <= r <= 57 -> is_digit (ascii_of_nat (Z.to_nat r)) = true.
Proof.
  intros Hr. unfold is_digit. rewrite nat_ascii_embedding by lia.
  apply andb_true_iff. split; apply Nat.leb_le; lia.
Qed.

Lemma ProcessOperand_shape (c : Calculator) (r : Z) :
  display_shape (Display c) = true ->
  display_shape (Display (snd (ProcessOperand c r))) = true.
Proof.
  rewrite !display_shape_iff. intros H. unfold ProcessOperand.
  destruct (negb _) eqn:Eg; [done|].
  apply negb_false_iff, orb_true_iff in Eg.
  set (c1 := if is_sentinel (Display c) then reset c else c).
  assert (H1 : shape_l (list_ascii_of_string (Display c1)) /\
               (contains_dot (Display c) = false -> dot_count (Display c1) = O)).
  { subst c1. destruct (is_sentinel _).
    - split; [apply shape_digit; reflexivity|done].
    - split; [done|apply contains_dot_count]. }
  set (c2 := match Operator c1, Operand1 c1 with Some _, None => _ | _, _ => c1 end).
  assert (H2 : shape_l (list_ascii_of_string (Display c2)) /\
               (contains_dot (Display c) = false -> dot_count (Display c2) = O)).
  { subst c2. destruct (Operator c1), (Operand1 c1); try done.
    split; [apply shape_digit; reflexivity|done]. }
  destruct H2 as [H2 H2d].
  destruct (String.eqb (Display c2) "0" && negb (r =? 46)) eqn:E; simpl.
  - apply andb_true_iff in E as [_ E]. apply negb_true_iff, Z.eqb_neq in E.
    destruct Eg as [Eg|Eg]; [|apply andb_true_iff in Eg as [Eg _]; lia].
    apply andb_true_iff in Eg as [E1 E2]. apply Z.leb_le in E1, E2.
    apply shape_digit, rune_digit_is_digit. lia.
  - unfold rune_string. rewrite list_ascii_append. simpl. destruct Eg as [Eg|Eg].
    + apply andb_true_iff in Eg as [E1 E2]. apply Z.leb_le in E1, E2.
      apply shape_snoc_digit; [done|]. apply rune_digit_is_digit. lia.
    + apply andb_true_iff in Eg as [E1 E2]. apply Z.eqb_eq in E1. subst r.
      apply negb_true_iff in E2. apply shape_snoc_dot; [done|]. apply H2d, E2.
Qed.

Lemma T_on_dash (c : Calculator) (rest : string) :
  Display c = String "-"%char rest -> ProcessOperator c 84 = (None, set_display c rest).
Proof. intros Hd. unfold ProcessOperator. simpl. rewrite Hd. reflexivity. Qed.

Lemma T_on_digit (c : Calculator) (ch : ascii) (rest : string) :
  Display c = String ch rest -> is_digit ch = true -> Display c <> "0"%string ->
  ProcessOperator c 84 = (None, set_display c (String "-"%char (Display c))).
Proof.
  intros Hd Hdig Hz. unfold ProcessOperator. simpl.
  destruct (String.eqb_spec (Display c) "0"); [contradiction|].
  rewrite Hd. destruct ch as [[] [] [] [] [] [] [] []]; first [reflexivity | discriminate Hdig].
Qed.

Lemma string_of_shape (s : string) (sg ip fp : list ascii) :
  list_ascii_of_string s = sg ++ ip ++ fp -> ip <> [] ->
  Forall (fun c => is_digit c = true) ip -> (sg = [] \/ sg = ["-"%char]) ->
  (sg = [] /\ exists ch rest, s = String ch rest /\ is_digit ch = true) \/
  (sg = ["-"%char] /\ s = String "-"%char (string_of_list_ascii (ip ++ fp))).
Proof.
  intros E Hne Hip [-> | ->].
  - left. split; [done|]. destruct ip as [|d ip]; [done|].
    inversion Hip as [|? ? Hd _]; subst.
    destruct s as [|ch rest]; [discriminate E|]. simpl in E. inversion E; subst.
    exists d, rest. done.
  - right. split; [done|]. destruct s as [|ch rest]; [discriminate E|].
    simpl in E. inversion E; subst. rewrite string_of_list_ascii_of_string. done.
Qed.

Lemma ProcessOperator_shape (c : Calculator) (r : Z) :
  display_shape (Display c) = true ->
  display_shape (Display (snd (ProcessOperator c r))) = true.
Proof.
  intros H. destruct (Z.eqb_spec r 84) as [->|Hr].
  - destruct (String.eqb_spec (Display c) "0") as [Hz|Hz].
    { unfold ProcessOperator. simpl. rewrite Hz, String.eqb_refl. exact H. }
    pose proof H as H'. apply display_shape_iff in H'.
    destruct H' as (sg & ip & fp & E & Hsg & Hne & Hip & Hfp).
    destruct (string_of_shape _ _ _ _ E Hne Hip Hsg)
      as [(-> & ch & rest & Hd & Hdig) | (-> & Hd)].
    + rewrite (T_on_digit c ch rest Hd Hdig Hz). simpl.
      apply display_shape_iff. simpl. rewrite Hd. simpl.
      apply shape_dash; [change (ch :: list_ascii_of_string rest) with (list_ascii_of_string (String ch rest)); rewrite <- Hd; apply display_shape_iff, H|].
      intros ->. discriminate Hdig.
    + rewrite (T_on_dash c _ Hd). simpl. apply display_shape_iff.
      rewrite list_ascii_of_string_of_list_ascii. exists [], ip, fp. auto.
  - unfold ProcessOperator.
    destruct (r =? 67); [reflexivity|].
    destruct (Z.eqb_spec r 84); [contradiction|].
    destruct (r =? 61).
    + unfold calculate. destruct (Operand1 c); [|done].
      destruct (parse (Display c)); [|done]. simpl. destruct (Operator c); [|done].
      destruct (compute _ _ _); [done|]. apply display_shape_iff, display_shape_text.
    + destruct (negb _ || _); [done|]. destruct (parse (Display c)); done.
Qed.

Lemma reachable_shape (c : Calculator) : reachable c -> display_shape (Display c) = true.
Proof.
  induction 1.
  - reflexivity.
  - apply ProcessOperand_shape; done.
  - apply ProcessOperator_shape; done.
Qed.

Lemma scan_digits_app (ds rest : list ascii) (acc : Z) (cnt : nat) :
  Forall (fun c => is_digit c = true) ds ->
  match rest with c :: _ => is_digit c = false | [] => True end ->
  exists n, scan_digits (ds ++ rest) acc cnt = (n, (cnt + length ds)%nat, rest).
Proof.
  revert acc cnt. induction ds as [|d ds IH]; intros acc cnt Hds Hr; cbn [app].
  - exists acc. rewrite Nat.add_0_r. destruct rest as [|c rest]; [reflexivity|].
    cbn [scan_digits]. rewrite Hr. reflexivity.
  - inversion Hds as [|? ? Hd Hds']; subst. cbn [scan_digits]. rewrite Hd.
    destruct (IH (acc * 10 + Z.of_nat (nat_of_ascii d - 48)) (S cnt) Hds' Hr) as [n Hn].
    exists n. rewrite Hn. do 2 f_equal. simpl length. lia.
Qed.

Lemma parse_shape (s : string) :
  shape_l (list_ascii_of_string s) -> exists b, parse s = Some b.
Proof.
  intros (sg & ip & fp & E & Hsg & Hne & Hip & Hfp).
  assert (Hr : match fp with c :: _ => is_digit c = false | [] => True end)
    by (destruct Hfp as [-> | (ds & -> & _)]; reflexivity).
  destruct ip as [|d ip']; [done|].
  destruct (scan_digits_app (d :: ip') fp 0 0 Hip Hr) as [n Hn].
  cbn [app] in Hn. inversion Hip as [|? ? Hd _]; subst.
  assert (Htail : exists n' c2,
            (match fp with
             | "."%char :: r => scan_digits r n 0
             | _ => (n, 0%nat, fp)
             end) = (n', c2, [])).
  { destruct Hfp as [-> | (ds & -> & Hds)].
    - eexists _, _. reflexivity.
    - destruct (scan_digits_app ds [] n 0 Hds I) as [m Hm].
      rewrite app_nil_r in Hm. eexists _, _. exact Hm. }
  destruct Htail as (n' & c2 & Ht).
  unfold parse. rewrite E.
  destruct Hsg as [-> | ->].
  - simpl app.
    destruct d as [[] [] [] [] [] [] [] []]; try discriminate Hd;
      cbn -[scan_digits]; rewrite Hn; cbn -[scan_digits]; rewrite Ht;
      repeat case_match; eauto; discriminate.
  - cbn -[scan_digits]. rewrite Hn. cbn -[scan_digits]. rewrite Ht.
    repeat case_match; eauto; discriminate.
Qed.

Lemma shape_not_sentinel (s : string) : display_shape s = true -> is_sentinel s = false.
Proof.
  intros H. unfold is_sentinel. simpl.
  repeat match goal with
         | |- context [String.eqb s ?x] =>
             destruct (String.eqb_spec s x) as [->|?]; [vm_compute in H; discriminate H|]
         end.
  reflexivity.
Qed.

Lemma calculate_ok (c c' : Calculator) :
  ProcessOperator c 61 = (None, c') ->
  exists res, c' = set_display (reset c) (trim_suffix (text res) ".0").
Proof.
  change (ProcessOperator c 61) with (calculate c). unfold calculate.
  destruct (Operand1 c); [|discriminate]. destruct (parse (Display c)); [|discriminate].
  simpl. destruct (Operator c); [|discriminate].
  destruct (compute _ _ _) as [|res]; [discriminate|].
  intros H. inversion H. eexists. reflexivity.
Qed.

End CalcFacts.

(** * The claims about the engine *)
Module CalcClaims.
Import BigFloat FloatConv Calc CalcFacts.

(** C1 (code bug): [7], sign toggle, [%], [2], [=] displays "-1", the
    remainder of the quotient truncated toward zero ([quo.Int] truncates),
    while the floored remainder [-7 - 2 * floor(-7 / 2)] is 1. *)
Lemma modulo_truncates_toward_zero :
  run NewCalculator [Digit 55; Op 84; Op 37; Digit 50; Op 61]
  = (None, mkcalc "-1" None None None) /\
  -7 - 2 * Z.div (-7) 2 = 1.
Proof. vm_compute. split; reflexivity. Qed.

(** C2 (code bug): after [1], [/], [0] the second operand holds the
    placeholder [new(big.Float)]; the failed [=] returns
    [ErrDivisionByZero] but has replaced it by the parsed display (a zero
    of precision 64), so the state differs from the one before the call. *)
Lemma div_zero_overwrites_operand1 :
  let c := snd (run NewCalculator [Digit 49; Op 47; Digit 48]) in
  Operand1 c = Some new /\
  ProcessOperator c 61 =
  (Some ErrDivisionByZero,
   mkcalc (Display c) (Operand0 c) (Some (mk 64 false Zero)) (Operator c)) /\
  snd (ProcessOperator c 61) <> c.
Proof. vm_compute. split; [reflexivity|]. split; [reflexivity|]. discriminate. Qed.

(** C3 (counterexample): 18446744073709551617 + 0 displays
    18446744073709551616: the operand is rounded to a 64-bit mantissa when
    parsed, so the display is not the exact decimal sum. *)
Lemma exact_decimal_sum_cex :
  let c := snd (run NewCalculator
                  (digits_of "18446744073709551617" ++ [Op 43; Digit 48; Op 61])) in
  Display c = "18446744073709551616"%string /\
  Display c <> "18446744073709551617"%string.
Proof. vm_compute. split; [reflexivity|discriminate]. Qed.

(** C3 (amended): with operator '+', '-', '*' or '/' pending, a first
    operand [a] as stored (parsed at precision 64) and a display that
    parses to [b]: '/' with [b = 0] makes [=] return [DivisionByZero];
    otherwise [=] succeeds, resets the engine and displays the shortest
    decimal text of the exact result [a op b] rounded to a 64-bit mantissa
    (round half to even), a zero shown as "0". *)
Theorem evaluation_rounds_to_64_bits (c : Calculator) (op : Z) (a b : t) :
  Operator c = Some op -> (op = 43 \/ op = 45 \/ op = 42 \/ op = 47) ->
  Operand0 c = Some a -> prec a = 64 -> Operand1 c <> None ->
  parse (Display c) = Some b ->
  (op = 47 -> sign b = 0 -> fst (ProcessOperator c 61) = Some ErrDivisionByZero) /\
  ((op = 47 -> sign b <> 0) ->
   ProcessOperator c 61 =
   (None, mkcalc (trim_suffix (text (round64 (exact_result op a b))) ".0")
                 None None None)).
Proof.
  intros Hop Hops Ha Hpa H1 Hb. split.
  { intros -> Hz. change (ProcessOperator c 61) with (calculate c). unfold calculate.
    destruct (Operand1 c) eqn:E1; [|congruence].
    rewrite Hb. simpl. rewrite Hop. unfold compute. simpl. rewrite Hz. reflexivity. }
  intros Hdiv.
  pose proof (parse_prec _ _ Hb) as Hpb.
  change (ProcessOperator c 61) with (calculate c). unfold calculate.
  destruct (Operand1 c) eqn:E1; [|congruence].
  rewrite Hb. simpl. rewrite Hop, Ha.
  pose proof (frac_den a) as Da. pose proof (frac_den b) as Db.
  pose proof (frac_num a) as [Za Na]. pose proof (frac_num b) as [Zb Nb].
  unfold exact_result.
  destruct (frac a) as [na da] eqn:Fa. destruct (frac b) as [nb db] eqn:Fb.
  simpl in *.
  destruct Hops as [-> | [-> | [-> | ->]]]; unfold compute; simpl.
  - unfold add. rewrite Fa, Fb. unfold rprec. rewrite Hpa, Hpb. simpl.
    rewrite addsub_rounded. reflexivity.
  - unfold sub. rewrite Fa, Fb. unfold rprec. rewrite Hpa, Hpb. simpl.
    rewrite addsub_rounded. reflexivity.
  - unfold mul. rewrite Fa, Fb. unfold rprec. rewrite Hpa, Hpb. simpl.
    rewrite xor_sign_rounded; [reflexivity|].
    destruct (Z.eqb_spec (na * nb) 0) as [E|E]; [left; exact E|right].
    rewrite Fa, Fb. simpl.
    split; [intros Hs; apply Za in Hs; nia|]. split; [intros Hs; apply Zb in Hs; nia|].
    tauto.
  - specialize (Hdiv eq_refl).
    destruct (Z.eqb_spec (sign b) 0) as [E|E]; [contradiction|].
    unfold quo. rewrite Fa, Fb. unfold rprec. rewrite Hpa, Hpb. simpl.
    assert (Hnb : nb <> 0) by (intros E'; apply Zb in E'; contradiction).
    assert (Habs : Z.abs na * db = Z.abs (na * db * Z.sgn nb)).
    { destruct (Z.lt_trichotomy nb 0) as [L|[L|L]]; [|contradiction|].
      - rewrite (Z.sgn_neg nb L). nia.
      - rewrite (Z.sgn_pos nb L). nia. }
    rewrite Habs, xor_sign_rounded; [reflexivity|].
    destruct (Z.eqb_spec na 0) as [E0|E0]; [left; rewrite E0; lia|right].
    rewrite Fa, Fb. simpl.
    split; [intros Hs; apply Za in Hs; contradiction|]. split; [exact E|].
    destruct (Z.lt_trichotomy nb 0) as [L|[L|L]]; [|contradiction|].
    + rewrite (Z.sgn_neg nb L). nia.
    + rewrite (Z.sgn_pos nb L). nia.
Qed.

Lemma evaluation_rounds_to_64_bits_witness :
  let c := snd (run NewCalculator [Digit 49; Op 43; Digit 50]) in
  let a := match parse "1" with Some a => a | None => new end in
  let b := match parse "2" with Some b => b | None => new end in
  let c0 := snd (run NewCalculator [Digit 49; Op 47; Digit 48]) in
  let z := match parse "0" with Some z => z | None => new end in
  ProcessOperator c 61 = (None, mkcalc "3" None None None) /\
  ProcessOperator c 61 =
  (None, mkcalc (trim_suffix (text (round64 (exact_result 43 a b))) ".0")
                None None None) /\
  fst (ProcessOperator c0 61) = Some ErrDivisionByZero.
Proof.
  intros c a b c0 z. split; [vm_compute; reflexivity|]. split.
  - refine (proj2 (evaluation_rounds_to_64_bits c 43 a b _ _ _ _ _ _) _).
    + vm_compute. reflexivity.
    + left. reflexivity.
    + vm_compute. reflexivity.
    + vm_compute. reflexivity.
    + vm_compute. discriminate.
    + vm_compute. reflexivity.
    + intros E. discriminate E.
  - refine (proj1 (evaluation_rounds_to_64_bits c0 47 a z _ _ _ _ _ _) _ _).
    + vm_compute. reflexivity.
    + right. right. right. reflexivity.
    + vm_compute. reflexivity.
    + vm_compute. reflexivity.
    + vm_compute. discriminate.
    + vm_compute. reflexivity.
    + reflexivity.
    + vm_compute. reflexivity.
Defined.

(** C7: in every state reachable from [NewCalculator] the display is not
    empty and holds at most one '.', and one more [ProcessOperand] or
    [ProcessOperator] call, failed or not, keeps both properties. *)
Theorem display_nonempty_single_separator (c : Calculator) :
  reachable c ->
  (Display c <> ""%string /\ (dot_count (Display c) <= 1)%nat) /\
  forall r,
    (Display (snd (ProcessOperand c r)) <> ""%string
     /\ (dot_count (Display (snd (ProcessOperand c r))) <= 1)%nat) /\
    (Display (snd (ProcessOperator c r)) <> ""%string
     /\ (dot_count (Display (snd (ProcessOperator c r))) <= 1)%nat).
Proof.
  intros Hc.
  assert (Hok : forall c', reachable c' ->
            Display c' <> ""%string /\ (dot_count (Display c') <= 1)%nat).
  { intros c' Hc'. pose proof (reachable_display_ok c' Hc') as H.
    split; [apply display_ok_nonempty, H|apply H]. }
  split; [apply Hok, Hc|]. intros r.
  split; apply Hok; constructor; exact Hc.
Qed.

Lemma display_nonempty_single_separator_witness :
  let c := snd (ProcessOperand (snd (ProcessOperand
             (snd (ProcessOperand NewCalculator 49)) 46)) 53) in
  Display c = "1.5"%string /\
  (Display c <> ""%string /\ (dot_count (Display c) <= 1)%nat) /\
  forall r,
    (Display (snd (ProcessOperand c r)) <> ""%string
     /\ (dot_count (Display (snd (ProcessOperand c r))) <= 1)%nat) /\
    (Display (snd (ProcessOperator c r)) <> ""%string
     /\ (dot_count (Display (snd (ProcessOperator c r))) <= 1)%nat).
Proof.
  intros c. split; [vm_compute; reflexivity|].
  apply display_nonempty_single_separator.
  unfold c. apply reach_operand, reach_operand, reach_operand, reach_new.
Defined.

(** C10: [ProcessOperand '.'] fails with [ErrUnsupported] and changes
    nothing whenever the display already contains '.', whatever the
    operator and operands; the check precedes the reset of the display
    for a second operand. *)
Theorem dot_rejected_while_display_has_dot (c : Calculator) :
  contains_dot (Display c) = true ->
  ProcessOperand c 46 = (Some ErrUnsupported, c).
Proof. intros H. unfold ProcessOperand. rewrite H. reflexivity. Qed.

Lemma dot_rejected_while_display_has_dot_witness :
  let c := snd (run NewCalculator [Digit 49; Digit 46; Digit 53; Op 43]) in
  Operator c = Some 43 /\ Operand1 c = None /\ Display c = "1.5"%string /\
  ProcessOperand c 46 = (Some ErrUnsupported, c).
Proof.
  intros c. split; [vm_compute; reflexivity|].
  split; [vm_compute; reflexivity|]. split; [vm_compute; reflexivity|].
  apply dot_rejected_while_display_has_dot. vm_compute. reflexivity.
Defined.

End CalcClaims.

(** * Further properties of the engine *)
Module CalcExtra.
Import BigFloat FloatConv Calc CalcFacts.

(** In every reachable state the display is an optional '-', at least one
    digit, and optionally a '.' followed by digits; so it is never one of
    the texts "NaN", "Inf", "+Inf", "-Inf" that [ProcessOperand] resets,
    and [SetString] always accepts it. *)
Theorem display_well_formed (c : Calculator) :
  reachable c ->
  display_shape (Display c) = true /\ is_sentinel (Display c) = false /\
  exists b, parse (Display c) = Some b.
Proof.
  intros Hc. pose proof (reachable_shape c Hc) as H.
  split; [exact H|]. split; [apply shape_not_sentinel, H|].
  apply parse_shape, display_shape_iff, H.
Qed.

Lemma display_well_formed_witness :
  let c := snd (ProcessOperator (snd (ProcessOperand (snd (ProcessOperand
             (snd (ProcessOperand NewCalculator 49)) 46)) 53)) 84) in
  Display c = "-1.5"%string /\
  (display_shape (Display c) = true /\ is_sentinel (Display c) = false /\
   exists b, parse (Display c) = Some b).
Proof.
  intros c. split; [vm_compute; reflexivity|].
  apply display_well_formed.
  unfold c. apply reach_operator, reach_operand, reach_operand, reach_operand, reach_new.
Defined.

(** In a reachable state with no pending operator, each of the operator
    keys '%', '/', '*', '-', '+' succeeds: it stores the parsed display as
    the first operand and records the operator, leaving the display. *)
Theorem operator_key_accepted (c : Calculator) (r : Z) :
  reachable c -> Operator c = None -> is_operator r = true ->
  exists a, parse (Display c) = Some a /\
    ProcessOperator c r = (None, mkcalc (Display c) (Some a) (Operand1 c) (Some r)).
Proof.
  intros Hc Hop Hr. destruct (display_well_formed c Hc) as (_ & _ & b & Hb).
  exists b. split; [exact Hb|].
  unfold is_operator in Hr.
  repeat (apply orb_true_iff in Hr as [Hr|Hr]); apply Z.eqb_eq in Hr; subst r;
    unfold ProcessOperator; simpl; rewrite Hop, Hb; reflexivity.
Qed.

Lemma operator_key_accepted_witness :
  let c := snd (ProcessOperand NewCalculator 53) in
  exists a, parse (Display c) = Some a /\
    ProcessOperator c 43 = (None, mkcalc (Display c) (Some a) (Operand1 c) (Some 43)).
Proof.
  intros c. apply operator_key_accepted.
  - unfold c. apply reach_operand, reach_new.
  - vm_compute. reflexivity.
  - reflexivity.
Defined.

(** In a reachable state whose display is neither "0" nor "-0", pressing
    the sign toggle 'T' twice succeeds and restores the engine exactly. *)
Theorem toggle_twice_restores (c : Calculator) :
  reachable c -> Display c <> "0"%string -> Display c <> "-0"%string ->
  ProcessOperator (snd (ProcessOperator c 84)) 84 = (None, c).
Proof.
  intros Hc Hz Hmz. pose proof (reachable_shape c Hc) as H.
  apply display_shape_iff in H. destruct H as (sg & ip & fp & E & Hsg & Hne & Hip & Hfp).
  destruct (string_of_shape _ _ _ _ E Hne Hip Hsg)
    as [(-> & ch & rest & Hd & Hdig) | (-> & Hd)].
  - rewrite (T_on_digit c ch rest Hd Hdig Hz). simpl.
    rewrite (T_on_dash (set_display c (String "-"%char (Display c))) (Display c) eq_refl).
    destruct c. reflexivity.
  - rewrite (T_on_dash c _ Hd). simpl.
    destruct ip as [|d ip']; [done|]. inversion Hip as [|? ? Hdd _]; subst.
    set (rest := string_of_list_ascii ((d :: ip') ++ fp)) in *.
    assert (Hrest : Display (set_display c rest) = String d (string_of_list_ascii (ip' ++ fp)))
      by reflexivity.
    assert (Hrz : Display (set_display c rest) <> "0"%string).
    { simpl. intros Hr0. apply Hmz. rewrite Hd. fold rest. rewrite Hr0. reflexivity. }
    rewrite (T_on_digit (set_display c rest) d _ Hrest Hdd Hrz). simpl.
    fold rest. rewrite <- Hd. destruct c. reflexivity.
Qed.

Lemma toggle_twice_restores_witness :
  let c := snd (ProcessOperand NewCalculator 53) in
  ProcessOperator (snd (ProcessOperator c 84)) 84 = (None, c).
Proof.
  intros c. apply toggle_twice_restores.
  - unfold c. apply reach_operand, reach_new.
  - vm_compute. discriminate.
  - vm_compute. discriminate.
Defined.

(** A successful '=' clears the operator and both operands, so pressing
    '=' again fails with [ErrUnsupported] and changes nothing: an
    evaluation cannot be repeated. *)
Theorem equals_not_repeatable (c : Calculator) :
  fst (ProcessOperator c 61) = None ->
  ProcessOperator (snd (ProcessOperator c 61)) 61 =
  (Some ErrUnsupported, snd (ProcessOperator c 61)).
Proof.
  intros H. destruct (ProcessOperator c 61) as [e c'] eqn:E. simpl in H. subst e.
  destruct (calculate_ok c c' E) as [res ->]. reflexivity.
Qed.

Lemma equals_not_repeatable_witness :
  let c := snd (run NewCalculator [Digit 49; Op 43; Digit 50]) in
  ProcessOperator (snd (ProcessOperator c 61)) 61 =
  (Some ErrUnsupported, snd (ProcessOperator c 61)).
Proof.
  intros c. apply equals_not_repeatable. vm_compute. reflexivity.
Defined.

(** After a successful '=', a digit key does not start a new number: when
    the result shown is not "0", the digit is appended to it. *)
Theorem digit_after_result_appends (c : Calculator) (r : Z) :
  fst (ProcessOperator c 61) = None -> 48 <= r <= 57 ->
  Display (snd (ProcessOperator c 61)) <> "0"%string ->
  ProcessOperand (snd (ProcessOperator c 61)) r =
  (None, set_display (snd (ProcessOperator c 61))
           (String.append (Display (snd (ProcessOperator c 61))) (rune_string r))).
Proof.
  intros H Hr Hz. destruct (ProcessOperator c 61) as [e c'] eqn:E. simpl in *. subst e.
  destruct (calculate_ok c c' E) as [res ->]. simpl in *.
  assert (Hs : is_sentinel (trim_suffix (text res) ".0") = false)
    by (apply shape_not_sentinel, display_shape_iff, display_shape_text).
  unfold ProcessOperand. simpl.
  assert (Hd : (48 <=? r) && (r <=? 57) = true)
    by (apply andb_true_iff; split; apply Z.leb_le; lia).
  rewrite Hd. simpl. rewrite Hs. simpl.
  destruct (String.eqb_spec (trim_suffix (text res) ".0") "0"); [contradiction|].
  reflexivity.
Qed.

Lemma digit_after_result_appends_witness :
  let c := snd (run NewCalculator [Digit 49; Op 43; Digit 50]) in
  Display (snd (ProcessOperator c 61)) = "3"%string /\
  ProcessOperand (snd (ProcessOperator c 61)) 52 =
  (None, set_display (snd (ProcessOperator c 61))
           (String.append (Display (snd (ProcessOperator c 61))) (rune_string 52))).
Proof.
  intros c. split; [vm_compute; reflexivity|].
  apply digit_after_result_appends.
  - vm_compute. reflexivity.
  - lia.
  - vm_compute. discriminate.
Defined.


Lemma ProcessOperand_inv (c : Calculator) (r : Z) : ptr_inv c -> ptr_inv (snd (ProcessOperand c r)).
Proof.
  intros [H1 H2]. unfold ProcessOperand.
  destruct (negb _); [split; assumption|].
  destruct (is_sentinel (Display c)); simpl.
  - match goal with |- context [if ?x then _ else _] => destruct x end;
      unfold ptr_inv; simpl; split; congruence.
  - destruct (Operator c) as [op|] eqn:Eo; destruct (Operand1 c) as [b|] eqn:E1; simpl;
      (match goal with |- context [if ?x then _ else _] => destruct x end);
      unfold ptr_inv; simpl; rewrite ?Eo, ?E1 in *; split; first [congruence | auto].
Qed.

Lemma ProcessOperator_inv (c : Calculator) (r : Z) : ptr_inv c -> ptr_inv (snd (ProcessOperator c r)).
Proof.
  intros [H1 H2]. unfold ProcessOperator.
  destruct (r =? 67); [exact (conj H1 H2)|].
  destruct (r =? 84).
  { destruct (String.eqb (Display c) "0"); [exact (conj H1 H2)|].
    destruct (Display c) as [|ch rest]; [exact (conj H1 H2)|].
    destruct ch as [[] [] [] [] [] [] [] []]; exact (conj H1 H2). }
  destruct (r =? 61).
  { unfold calculate. destruct (Operand1 c) as [b|] eqn:E1; [|unfold ptr_inv; simpl; rewrite E1; split; assumption].
    destruct (parse (Display c)) as [b'|]; [|unfold ptr_inv; simpl; rewrite E1; split; assumption]. simpl.
    destruct (Operator c) as [op|] eqn:Eo; simpl; [|exfalso; apply H1; [discriminate|reflexivity]].
    destruct (compute _ _ _); simpl; split; first [congruence | auto]. }
  destruct (negb (is_operator r) || _) eqn:Eb; [exact (conj H1 H2)|].
  destruct (Operator c) as [op|] eqn:Eo; [apply orb_false_iff in Eb as [_ Eb]; discriminate|].
  destruct (parse (Display c)); [|unfold ptr_inv; simpl; rewrite Eo; split; assumption]. simpl.
  split; [intros _; discriminate|intros _; discriminate].
Qed.

Lemma reachable_inv (c : Calculator) : reachable c -> ptr_inv c.
Proof.
  induction 1.
  - split; simpl; congruence.
  - apply ProcessOperand_inv. assumption.
  - apply ProcessOperator_inv. assumption.
Qed.

Lemma compute_no_nil (op : Z) (a b : t) : compute op (Some a) b <> inl ErrNilDereference.
Proof.
  unfold compute.
  repeat match goal with |- context [if ?x then _ else _] => destruct x end; discriminate.
Qed.

Lemma reachable_no_nil (c : Calculator) (r : Z) :
  reachable c ->
  fst (ProcessOperand c r) <> Some ErrNilDereference /\
  fst (ProcessOperator c r) <> Some ErrNilDereference.
Proof.
  intros Hc. destruct (reachable_inv c Hc) as [H1 H2]. split.
  - unfold ProcessOperand.
    destruct (negb _); [discriminate|].
    repeat match goal with |- context [if ?x then _ else _] => destruct x end; discriminate.
  - unfold ProcessOperator.
    destruct (r =? 67); [discriminate|].
    destruct (r =? 84).
    { destruct (String.eqb (Display c) "0"); [discriminate|].
      destruct (Display c) as [|ch rest]; [discriminate|].
      destruct ch as [[] [] [] [] [] [] [] []]; discriminate. }
    destruct (r =? 61).
    { unfold calculate. destruct (Operand1 c) as [b|] eqn:E1; [|discriminate].
      destruct (parse (Display c)) as [b'|]; [|discriminate]. simpl.
      destruct (Operator c) as [op|] eqn:Eo; [|exfalso; apply H1; congruence].
      destruct (Operand0 c) as [a|] eqn:E0; [|exfalso; apply H2; congruence].
      destruct (compute op (Some a) b') as [e|] eqn:Ec; simpl; [|discriminate].
      intros He. injection He as ->. exact (compute_no_nil op a b' Ec). }
    destruct (negb (is_operator r) || _); [discriminate|].
    destruct (parse (Display c)); discriminate.
Qed.

(** No key press on a reachable engine dereferences a nil pointer: a
    second operand is only ever set together with an operator, and an
    operator only together with a first operand. *)
Theorem reachable_no_nil_dereference (c : Calculator) (r : Z) :
  reachable c ->
  fst (ProcessOperand c r) <> Some ErrNilDereference /\
  fst (ProcessOperator c r) <> Some ErrNilDereference.
Proof. apply reachable_no_nil. Qed.

Lemma reachable_no_nil_dereference_witness :
  let c := snd (ProcessOperand (snd (ProcessOperator (snd (ProcessOperand NewCalculator 56)) 47)) 48) in
  fst (ProcessOperator c 61) = Some ErrDivisionByZero /\
  (fst (ProcessOperand c 61) <> Some ErrNilDereference /\
   fst (ProcessOperator c 61) <> Some ErrNilDereference).
Proof.
  intros c. split; [vm_compute; reflexivity|].
  apply reachable_no_nil_dereference.
  unfold c. apply reach_operand, reach_operator, reach_operand, reach_new.
Defined.

End CalcExtra.

(** * Further properties of the session store *)
Module StoreExtra.
Import Store StoreFacts StoreOps.

Section Lemmas.
Context {V : Type}.
Implicit Types (mc : @Memcached V) (k : string) (v : V).

Lemma Get_clean mc k now t :
  now <= t -> Get (cleanExpiredItems mc now) k t = Get mc k t.
Proof.
  intros Hle. unfold Get, cleanExpiredItems. simpl.
  destruct (items mc !! k) as [it|] eqn:E.
  - destruct (decide (now <= expireAt it)) as [Hk|Hk].
    + rewrite (map_lookup_filter_Some_2 _ _ k it E) by exact Hk. reflexivity.
    + rewrite map_lookup_filter_None_2.
      * destruct (t >? expireAt it) eqn:Et; [reflexivity|lia].
      * right. intros x Hx. rewrite E in Hx. inversion Hx; subst. exact Hk.
  - rewrite map_lookup_filter_None_2 by (left; exact E). reflexivity.
Qed.

Lemma clean_sub mc now k it :
  items (cleanExpiredItems mc now) !! k = Some it -> items mc !! k = Some it.
Proof. apply map_lookup_filter_Some_1_1. Qed.

Lemma IsEmpty_Get mc k t : IsEmpty mc = true -> Get mc k t = None.
Proof.
  unfold IsEmpty, Get. intros H. apply bool_decide_eq_true in H.
  rewrite H, lookup_empty. reflexivity.
Qed.

Lemma apply_op_drain mc o :
  inShutdown mc = true ->
  dom (items (apply_op mc o)) ⊆ dom (items mc) /\ inShutdown (apply_op mc o) = true.
Proof.
  intros Hs. destruct o as [k v now | now]; simpl.
  - unfold Set_. rewrite Hs. simpl.
    destruct (items mc !! k) as [it|] eqn:E; simpl.
    + split; [|reflexivity]. simpl. rewrite dom_insert.
      apply elem_of_dom_2 in E. set_solver.
    + split; [reflexivity|exact Hs].
  - split; [apply dom_filter_subseteq|exact Hs].
Qed.

End Lemmas.

(** A sweep at time [now] never changes what [Get] answers at [now] or any
    later time: it removes only entries that had already expired. *)
Theorem sweep_keeps_live {V : Type} (mc : @Memcached V) (k : string) (now t : Z) :
  now <= t -> Get (cleanExpiredItems mc now) k t = Get mc k t.
Proof. apply Get_clean. Qed.

Lemma sweep_keeps_live_witness :
  let mc := Set_ (Set_ (NewMemcached 10) "a" 1%nat 0) "b" 2%nat 5 in
  Get (cleanExpiredItems mc 12) "b" 14 = Some 2%nat /\
  Get (cleanExpiredItems mc 12) "b" 14 = Get mc "b" 14.
Proof.
  intros mc. split; [vm_compute; reflexivity|].
  apply sweep_keeps_live. lia.
Defined.

(** [Set] on one key never changes what [Get] answers for another key. *)
Theorem set_other_key {V : Type} (mc : @Memcached V) (k k' : string) (v : V) (now t : Z) :
  k <> k' -> Get (Set_ mc k v now) k' t = Get mc k' t.
Proof.
  intros Hne. unfold Set_.
  destruct (inShutdown mc && _); [reflexivity|].
  unfold Get. simpl. rewrite lookup_insert_ne by exact Hne. reflexivity.
Qed.

Lemma set_other_key_witness :
  let mc := Set_ (NewMemcached 10) "a" 1%nat 0 in
  Get (Set_ mc "b" 2%nat 3) "a" 4 = Some 1%nat /\
  Get (Set_ mc "b" 2%nat 3) "a" 4 = Get mc "a" 4.
Proof.
  intros mc. split; [vm_compute; reflexivity|].
  apply set_other_key. discriminate.
Defined.

(** Once the store is in shutdown, no sequence of [Set] calls and sweeps
    adds a key: the keys only shrink, and the store stays in shutdown. In
    particular an empty draining store stays empty. *)
Theorem drain_keys_shrink {V : Type} (mc : @Memcached V) (os : list op) :
  inShutdown mc = true ->
  dom (items (exec mc os)) ⊆ dom (items mc) /\ inShutdown (exec mc os) = true.
Proof.
  revert mc. induction os as [|o os IH]; intros mc Hs; simpl.
  - split; [reflexivity|exact Hs].
  - destruct (apply_op_drain mc o Hs) as [Hd Hs'].
    destruct (IH _ Hs') as [Hd' Hs'']. split; [set_solver|exact Hs''].
Qed.

Lemma drain_keys_shrink_witness :
  let mc := mkmc (items (Set_ (NewMemcached 10) "a" 1%nat 0)) 10 true in
  dom (items (exec mc [OSet "b" 2%nat 1; OSet "a" 3%nat 2; OSweep 20])) ⊆ dom (items mc) /\
  inShutdown (exec mc [OSet "b" 2%nat 1; OSet "a" 3%nat 2; OSweep 20]) = true.
Proof. intros mc. apply drain_keys_shrink. reflexivity. Defined.

Section Drain.
Context {V : Type}.

Lemma drain_reaches (mc : @Memcached V) (pre : list round) (r : round) (post : list round) :
  Forall (fun r => r_ops r = [] /\ r_wake r = Tick) pre -> r_ops r = [] ->
  (forall k it, items mc !! k = Some it -> expireAt it < r_now r) ->
  exists mc', drain mc (pre ++ r :: post) = Some (true, mc').
Proof.
  intros Hpre. revert mc. induction Hpre as [|p pre [Hp Hw] _ IH]; intros mc Hr Hexp; simpl.
  - rewrite Hr. simpl.
    assert (He : IsEmpty (cleanExpiredItems mc (r_now r)) = true).
    { unfold IsEmpty, cleanExpiredItems. simpl. apply bool_decide_eq_true.
      apply map_empty_filter. intros k it Hit. simpl. specialize (Hexp k it Hit). lia. }
    rewrite He. eexists. reflexivity.
  - rewrite Hp. simpl.
    destruct (IsEmpty (cleanExpiredItems mc (r_now p))); [eexists; reflexivity|].
    rewrite Hw. apply IH; [exact Hr|].
    intros k it Hit. apply clean_sub in Hit. exact (Hexp k it Hit).
Qed.

Lemma drain_sound (mc : @Memcached V) (rs : list round) (t : Z) mc' :
  Forall (fun r => r_ops r = [] /\ r_now r <= t) rs ->
  drain mc rs = Some (true, mc') -> forall k, Get mc k t = None.
Proof.
  intros Hrs. revert mc. induction Hrs as [|r rs [Ho Hn] _ IH]; intros mc Hd k; simpl in Hd.
  - discriminate.
  - rewrite Ho in Hd. simpl in Hd.
    rewrite <- (Get_clean mc k (r_now r) t Hn).
    destruct (IsEmpty (cleanExpiredItems mc (r_now r))) eqn:E.
    + apply IsEmpty_Get, E.
    + destruct (r_wake r); [|discriminate]. exact (IH _ Hd k).
Qed.

End Drain.

(** When no other goroutine writes the store and the context is not
    cancelled before, [Shutdown] returns nil at the first round whose clock
    is past the expiry of every entry it started with. *)
Theorem shutdown_completes {V : Type} (mc : @Memcached V) (pre : list round) (r : round)
    (post : list round) :
  Forall (fun r => r_ops r = [] /\ r_wake r = Tick) pre -> r_ops r = [] ->
  (forall k it, items mc !! k = Some it -> expireAt it < r_now r) ->
  exists mc', Shutdown mc (pre ++ r :: post) = Some (true, mc').
Proof.
  intros Hpre Hr Hexp. unfold Shutdown. apply drain_reaches; [exact Hpre|exact Hr|exact Hexp].
Qed.

Lemma shutdown_completes_witness :
  let mc := Set_ (Set_ (NewMemcached 10) "a" 1%nat 0) "b" 2%nat 5 in
  exists mc', Shutdown mc ([mkround [] 12 Tick] ++ mkround [] 16 CtxDone :: [])
              = Some (true, mc').
Proof.
  intros mc. apply shutdown_completes.
  - repeat constructor.
  - reflexivity.
  - intros k it Hit. unfold mc in Hit. simpl in Hit.
    destruct (decide (k = "b"%string)) as [->|Hb].
    + rewrite lookup_insert_eq in Hit. inversion Hit. simpl. vm_compute. reflexivity.
    + rewrite lookup_insert_ne in Hit by congruence.
      destruct (decide (k = "a"%string)) as [->|Ha].
      * rewrite lookup_insert_eq in Hit. inversion Hit. simpl. vm_compute. reflexivity.
      * rewrite lookup_insert_ne, lookup_empty in Hit by congruence. discriminate.
Defined.

(** When no other goroutine writes the store, a nil result of [Shutdown]
    means every entry it started with has expired at any time [t] not
    before its rounds: no live session is dropped. *)
Theorem shutdown_nil_all_expired {V : Type} (mc mc' : @Memcached V) (rs : list round) (t : Z) :
  Forall (fun r => r_ops r = [] /\ r_now r <= t) rs ->
  Shutdown mc rs = Some (true, mc') -> forall k, Get mc k t = None.
Proof.
  intros Hrs Hd k. unfold Shutdown in Hd.
  pose proof (drain_sound _ rs t mc' Hrs Hd k) as H. exact H.
Qed.

Lemma shutdown_nil_all_expired_witness :
  let mc := Set_ (NewMemcached 10) "a" 1%nat 0 in
  Shutdown mc [mkround [] 5 Tick; mkround [] 11 Tick] = Some (true, mkmc ∅ 10 true) /\
  Get mc "a" 20 = None.
Proof.
  intros mc. split; [vm_compute; reflexivity|].
  apply (shutdown_nil_all_expired mc (mkmc ∅ 10 true) [mkround [] 5 Tick; mkround [] 11 Tick]).
  - repeat constructor; simpl; lia.
  - vm_compute. reflexivity.
Defined.

(** [Close] on a store that is not shut down never returns: it holds [mu]
    when it calls [closeCleaner], which locks [mu] again. *)
Theorem close_blocks_while_running {V : Type} (s : @LState V) :
  mu_held s = false -> inShutdown (st s) = false -> Close_m s = Blocked.
Proof.
  destruct s as [h mc cc]. simpl. intros -> Hs.
  unfold Close_m, bind, lock, load_inShutdown, modify_st, closeCleaner. simpl.
  rewrite Hs. reflexivity.
Qed.

Lemma close_blocks_while_running_witness :
  @Close_m nat (mkls false (NewMemcached 10) false) = Blocked.
Proof. apply close_blocks_while_running; reflexivity. Defined.

(** The start of [Shutdown] does not block: it returns with [mu] released,
    the store in shutdown with its entries kept and the cleaner stopped;
    a later [Close] then returns [ErrMemcachedClosed] and changes
    nothing. *)
Theorem shutdown_then_close {V : Type} (s : @LState V) :
  mu_held s = false ->
  exists s', Shutdown_start s = Done tt s' /\ mu_held s' = false /\
    inShutdown (st s') = true /\ items (st s') = items (st s) /\
    cleaner_closed s' = true /\ Close_m s' = Done false s'.
Proof.
  destruct s as [h mc cc]. simpl. intros ->.
  eexists. split; [reflexivity|]. simpl. repeat split. 
Qed.

Lemma shutdown_then_close_witness :
  exists s', Shutdown_start (mkls false (Set_ (NewMemcached 10) "a" 1%nat 0) false) = Done tt s' /\
    mu_held s' = false /\
    inShutdown (st s') = true /\ items (st s') = items (Set_ (NewMemcached 10) "a" 1%nat 0) /\
    cleaner_closed s' = true /\ Close_m s' = Done false s'.
Proof. apply shutdown_then_close. reflexivity. Defined.

End StoreExtra.

(** * Properties of the bot handlers *)
Module BotExtra.
Import Calc Store StoreFacts StoreOps StoreExtra BotModel CalcExtra.

Lemma uint_no_us (d : Decimal.uint) ch :
  In ch (list_ascii_of_string (NilEmpty.string_of_uint d)) -> ch <> "_"%char.
Proof.
  induction d; simpl; intros H; try contradiction;
    destruct H as [<-|H]; try discriminate; auto.
Qed.

Lemma fmt_d_no_us (z : Z) ch : In ch (list_ascii_of_string (fmt_d z)) -> ch <> "_"%char.
Proof.
  unfold fmt_d, NilEmpty.string_of_int. destruct (Z.to_int z) as [d|d].
  - apply uint_no_us.
  - simpl. intros [<-|H]; [discriminate|]. exact (uint_no_us d ch H).
Qed.

Lemma split_us (s1 s2 t1 t2 : string) :
  (forall ch, In ch (list_ascii_of_string s1) -> ch <> "_"%char) ->
  (forall ch, In ch (list_ascii_of_string s2) -> ch <> "_"%char) ->
  String.append s1 (String "_" t1) = String.append s2 (String "_" t2) ->
  s1 = s2 /\ t1 = t2.
Proof.
  revert s2. induction s1 as [|a s1 IH]; intros [|b s2] H1 H2 E; simpl in E.
  - injection E as E. auto.
  - injection E as <- _. exfalso. exact (H2 "_"%char (or_introl eq_refl) eq_refl).
  - injection E as -> _. exfalso. exact (H1 "_"%char (or_introl eq_refl) eq_refl).
  - injection E as -> E.
    destruct (IH s2 (fun ch H => H1 ch (or_intror H)) (fun ch H => H2 ch (or_intror H)) E)
      as [-> ->].
    auto.
Qed.

Lemma fmt_d_inj (a b : Z) : fmt_d a = fmt_d b -> a = b.
Proof.
  unfold fmt_d. intros H.
  apply DecimalZ.to_int_inj.
  apply (f_equal NilEmpty.int_of_string) in H.
  rewrite !NilEmpty.isi in H. injection H as H. exact H.
Qed.

(** Distinct (chat, user) pairs get distinct session keys: the key
    [fmt.Sprintf("%d_%d", chat, user)] determines both numbers, negative
    ones included. *)
Theorem session_key_injective (chat user chat' user' : Z) :
  session_key chat user = session_key chat' user' -> chat = chat' /\ user = user'.
Proof.
  unfold session_key. simpl. intros H.
  destruct (split_us _ _ _ _ (fmt_d_no_us chat) (fmt_d_no_us chat') H) as [H1 H2].
  split; apply fmt_d_inj; assumption.
Qed.

Lemma session_key_injective_witness :
  session_key (-100123) 45 = "-100123_45"%string /\
  ((-100123) = (-100123) /\ 45 = 45).
Proof.
  split; [vm_compute; reflexivity|].
  apply session_key_injective. reflexivity.
Defined.

(** A button pressed on a session that [Get] does not return (expired or
    never opened) touches neither the store nor the engines: the bot
    answers the callback, replaces the text by the expiry notice unless it
    is already shown, and returns [ErrSessionExpired] (or the error of the
    edit). *)
Theorem expired_session_untouched (api : request -> bool) (w : World) (cb : Callback)
    (t_get t_set : Z) :
  api (AnswerCallback (cb_id cb)) = true ->
  Get (store w) (session_key (cb_chat cb) (cb_from cb)) t_get = None ->
  let edit := EditText (cb_chat cb) (cb_msg_id cb) expired_text in
  let upd := negb (String.eqb expired_text (cb_msg_text cb)) in
  handleCallback api w cb t_get t_set =
  (Some (if upd && negb (api edit) then BApi else BSessionExpired),
   mkworld (store w) (heap w) (next_loc w)
           (sent w ++ AnswerCallback (cb_id cb) :: (if upd then [edit] else []))
           (b_inShutdown w)).
Proof.
  intros Ha Hg edit upd. unfold handleCallback, send at 1. rewrite Ha.
  simpl. rewrite Hg. unfold updateKeyboard, upd, edit.
  destruct (String.eqb expired_text (cb_msg_text cb)); simpl; [reflexivity|].
  unfold send. destruct (api (EditText _ _ _)); simpl; unfold log; simpl; rewrite <- ?app_assoc; reflexivity.
Qed.



Lemma expired_session_untouched_witness :
  let edit := EditText (cb_chat cb0) (cb_msg_id cb0) expired_text in
  let upd := negb (String.eqb expired_text (cb_msg_text cb0)) in
  handleCallback (fun _ => true) w0 cb0 3 4 =
  (Some (if upd && negb ((fun _ => true) edit) then BApi else BSessionExpired),
   mkworld (store w0) (heap w0) (next_loc w0)
           (sent w0 ++ AnswerCallback (cb_id cb0) :: (if upd then [edit] else []))
           (b_inShutdown w0)).
Proof. apply expired_session_untouched; reflexivity. Defined.

Lemma not_AC (ch : ascii) : String.eqb (String ch EmptyString) "AC" = false.
Proof. apply String.eqb_neq. congruence. Qed.

(** A single-character button the engine accepts always changes the
    engine behind the session pointer, but the session's expiry is
    refreshed ([Set]) only when the message edit succeeds or is not
    needed; if the edit fails the bot returns its error and the session
    keeps its old expiry while holding the new engine. *)
Theorem keypress_refresh_after_edit (api : request -> bool) (w : World) (cb : Callback)
    (t_get t_set : Z) (l : loc) (c c' : Calculator) (ch : ascii) :
  api (AnswerCallback (cb_id cb)) = true ->
  Get (store w) (session_key (cb_chat cb) (cb_from cb)) t_get = Some l ->
  heap w !! l = Some c ->
  cb_data cb = String ch EmptyString ->
  (let r := Z.of_nat (nat_of_ascii ch) in
   if is_operand_key r then ProcessOperand c r else ProcessOperator c r) = (None, c') ->
  let ok := String.eqb (Display c') (cb_msg_text cb)
            || api (EditText (cb_chat cb) (cb_msg_id cb) (Display c')) in
  fst (handleCallback api w cb t_get t_set) = (if ok then None else Some BApi) /\
  heap (snd (handleCallback api w cb t_get t_set)) = <[l := c']> (heap w) /\
  store (snd (handleCallback api w cb t_get t_set)) =
    (if ok then Set_ (store w) (session_key (cb_chat cb) (cb_from cb)) l t_set else store w).
Proof.
  intros Ha Hg Hc Hd Hres ok. cbv zeta in Hres.
  unfold handleCallback, send. rewrite !Ha. simpl. rewrite !Hg.
  unfold press. rewrite !Hd, !not_AC. simpl. rewrite !Hc, !Hres. simpl.
  rewrite !lookup_insert_eq. unfold updateKeyboard, ok.
  destruct (String.eqb (Display c') (cb_msg_text cb)); simpl; [auto|].
  unfold send. destruct (api (EditText _ _ _)); simpl; auto.
Qed.



Lemma keypress_refresh_after_edit_witness :
  let cb := mkcb "q1" 7 100 "2" 9 "=" in
  let c := snd (run NewCalculator [Digit 56; Op 43; Digit 50]) in
  let c' := snd (ProcessOperator c 61) in
  let ok := String.eqb (Display c') (cb_msg_text cb)
            || api_noedit (EditText (cb_chat cb) (cb_msg_id cb) (Display c')) in
  fst (handleCallback api_noedit
         w1 cb 3 4) = (if ok then None else Some BApi) /\
  heap (snd (handleCallback api_noedit
         w1 cb 3 4)) = <[1%positive := c']> (heap w1) /\
  store (snd (handleCallback api_noedit
         w1 cb 3 4)) =
    (if ok then Set_ (store w1) (session_key 7 9) 1%positive 4 else store w1).
Proof.
  intros cb c c' ok.
  apply (keypress_refresh_after_edit _ w1 cb 3 4 1%positive c c' "="%char).
  - reflexivity.
  - vm_compute. reflexivity.
  - reflexivity.
  - reflexivity.
  - vm_compute. reflexivity.
Defined.

(** A single-character button the engine rejects (with an error other
    than a panic) is answered with [ErrUnsupported] and no edit; the
    session's expiry is not refreshed, yet the engine behind the session
    pointer keeps every change the failed call made. *)
Theorem rejected_key_keeps_mutation (api : request -> bool) (w : World) (cb : Callback)
    (t_get t_set : Z) (l : loc) (c c' : Calculator) (ch : ascii) (e : error) :
  api (AnswerCallback (cb_id cb)) = true ->
  Get (store w) (session_key (cb_chat cb) (cb_from cb)) t_get = Some l ->
  heap w !! l = Some c ->
  cb_data cb = String ch EmptyString ->
  (let r := Z.of_nat (nat_of_ascii ch) in
   if is_operand_key r then ProcessOperand c r else ProcessOperator c r) = (Some e, c') ->
  e <> ErrNilDereference ->
  handleCallback api w cb t_get t_set =
  (Some (BEngine ErrUnsupported),
   mkworld (store w) (<[l := c']> (heap w)) (next_loc w)
           (sent w ++ [AnswerCallback (cb_id cb)]) (b_inShutdown w)).
Proof.
  intros Ha Hg Hc Hd Hres He. cbv zeta in Hres.
  unfold handleCallback, send at 1. rewrite Ha. simpl. rewrite Hg.
  unfold press. rewrite Hd, not_AC. simpl. rewrite Hc, Hres. simpl.
  destruct e; [reflexivity|reflexivity|contradiction].
Qed.


Lemma rejected_key_keeps_mutation_witness :
  let c := snd (run NewCalculator [Digit 56; Op 47; Digit 48]) in
  let c' := snd (ProcessOperator c 61) in
  c' <> c /\
  handleCallback (fun _ => true) w2 (mkcb "q1" 7 100 "0" 9 "=") 3 4 =
  (Some (BEngine ErrUnsupported),
   mkworld (store w2) (<[1%positive := c']> (heap w2)) (next_loc w2)
           (sent w2 ++ [AnswerCallback "q1"]) (b_inShutdown w2)).
Proof.
  intros c c'. split; [vm_compute; discriminate|].
  apply (rejected_key_keeps_mutation _ w2 (mkcb "q1" 7 100 "0" 9 "=") 3 4 1%positive c c'
           "="%char ErrDivisionByZero).
  - reflexivity.
  - vm_compute. reflexivity.
  - reflexivity.
  - reflexivity.
  - vm_compute. reflexivity.
  - discriminate.
Defined.

(** "AC" on a live session puts a fresh engine at a new location; the
    session is switched to it (and its expiry refreshed) only when the
    edit to "0" succeeds or is not needed, otherwise the session keeps
    pointing at its old engine. *)
Theorem ac_installs_fresh_engine (api : request -> bool) (w : World) (cb : Callback)
    (t_get t_set : Z) (l : loc) :
  api (AnswerCallback (cb_id cb)) = true ->
  Get (store w) (session_key (cb_chat cb) (cb_from cb)) t_get = Some l ->
  cb_data cb = "AC"%string ->
  let ok := String.eqb "0" (cb_msg_text cb)
            || api (EditText (cb_chat cb) (cb_msg_id cb) "0") in
  fst (handleCallback api w cb t_get t_set) = (if ok then None else Some BApi) /\
  heap (snd (handleCallback api w cb t_get t_set)) = <[next_loc w := NewCalculator]> (heap w) /\
  store (snd (handleCallback api w cb t_get t_set)) =
    (if ok then Set_ (store w) (session_key (cb_chat cb) (cb_from cb)) (next_loc w) t_set
     else store w).
Proof.
  intros Ha Hg Hd ok.
  unfold handleCallback, send. rewrite !Ha. cbn -[String.eqb Get Set_]. rewrite !Hg.
  unfold press. rewrite !Hd, !String.eqb_refl. cbn -[String.eqb Get Set_].
  rewrite !lookup_insert_eq. unfold updateKeyboard, ok. cbn -[String.eqb Get Set_].
  destruct (String.eqb "0" (cb_msg_text cb)); cbn -[Get Set_]; [auto|].
  destruct (api (EditText _ _ _)); cbn -[Get Set_]; auto.
Qed.

Lemma ac_installs_fresh_engine_witness :
  let cb := mkcb "q1" 7 100 "10" 9 "AC" in
  let ok := String.eqb "0" (cb_msg_text cb)
            || (fun _ => true) (EditText (cb_chat cb) (cb_msg_id cb) "0") in
  fst (handleCallback (fun _ => true) w1 cb 3 4) = (if ok then None else Some BApi) /\
  heap (snd (handleCallback (fun _ => true) w1 cb 3 4)) =
    <[next_loc w1 := NewCalculator]> (heap w1) /\
  store (snd (handleCallback (fun _ => true) w1 cb 3 4)) =
    (if ok then Set_ (store w1) (session_key 7 9) (next_loc w1) 4 else store w1).
Proof.
  intros cb ok. apply (ac_installs_fresh_engine _ w1 cb 3 4 1%positive).
  - reflexivity.
  - vm_compute. reflexivity.
  - reflexivity.
Defined.

(** /open from a user whose session is live sends only the text "Your
    session is not expired!" and changes neither the store nor the
    engines. *)
Theorem open_live_session (api : request -> bool) (welcome : string) (w : World)
    (m : Message) (t_get t_set : Z) (u : Z) (l : loc) :
  msg_text m = "/open"%string -> msg_from m = Some u ->
  Get (store w) (session_key (msg_chat m) u) t_get = Some l ->
  handleCommand api welcome w m t_get t_set =
  (if api (SendText (msg_chat m) not_expired_text) then None else Some BApi,
   mkworld (store w) (heap w) (next_loc w)
           (sent w ++ [SendText (msg_chat m) not_expired_text]) (b_inShutdown w)).
Proof.
  intros Ht Hf Hg. unfold handleCommand. rewrite Ht, Hf. simpl. rewrite Hg. reflexivity.
Qed.

Lemma open_live_session_witness :
  handleCommand (fun _ => true) "hi" w1 (mkmsg 7 (Some 9) "/open") 3 4 =
  (if (fun _ => true) (SendText 7 not_expired_text) then None else Some BApi,
   mkworld (store w1) (heap w1) (next_loc w1)
           (sent w1 ++ [SendText 7 not_expired_text]) (b_inShutdown w1)).
Proof.
  apply (open_live_session _ _ w1 (mkmsg 7 (Some 9) "/open") 3 4 9 1%positive).
  - reflexivity.
  - reflexivity.
  - vm_compute. reflexivity.
Defined.

Lemma callback_no_session (api : request -> bool) (w : World) (cb : Callback) (t_get t_set : Z) :
  Get (store w) (session_key (cb_chat cb) (cb_from cb)) t_get = None ->
  store (snd (handleCallback api w cb t_get t_set)) = store w /\
  (fst (handleCallback api w cb t_get t_set) = Some BSessionExpired \/
   fst (handleCallback api w cb t_get t_set) = Some BApi).
Proof.
  intros Hg. unfold handleCallback, send.
  destruct (api (AnswerCallback (cb_id cb))); cbn -[String.eqb Get]; [|auto].
  rewrite !Hg. unfold updateKeyboard.
  destruct (String.eqb expired_text (cb_msg_text cb)); cbn -[Get]; [auto|].
  destruct (api (EditText (cb_chat cb) (cb_msg_id cb) expired_text)); simpl; auto.
Qed.

Lemma handleCallback_store (api : request -> bool) (w : World) (cb : Callback) (t1 t2 : Z) :
  store (snd (handleCallback api w cb t1 t2)) = store w \/
  exists k l t, store (snd (handleCallback api w cb t1 t2)) = Set_ (store w) k l t.
Proof.
  unfold handleCallback, press, updateKeyboard, send, log, set_heap, alloc, set_store.
  repeat case_match; simplify_eq/=; eauto.
Qed.

Lemma handleCommand_store (api : request -> bool) (welcome : string) (w : World) (m : Message)
    (t1 t2 : Z) :
  store (snd (handleCommand api welcome w m t1 t2)) = store w \/
  exists k l t, store (snd (handleCommand api welcome w m t1 t2)) = Set_ (store w) k l t.
Proof.
  unfold handleCommand, createMessage, createKeyboard, send, log, alloc, set_store.
  repeat case_match; simplify_eq/=; eauto.
Qed.

Lemma store_step_drain (mc mc' : @Memcached loc) :
  inShutdown mc = true ->
  (mc' = mc \/ exists k l t, mc' = Set_ mc k l t) ->
  dom (items mc') ⊆ dom (items mc) /\ inShutdown mc' = true.
Proof.
  intros Hs [-> | (k & l & t & ->)]; [split; [reflexivity|exact Hs]|].
  exact (apply_op_drain mc (OSet k l t) Hs).
Qed.

Lemma run_event_drain (api : request -> bool) (welcome : string) (w w' : World) (ev : event) :
  inShutdown (store w) = true -> run_event api welcome w ev = Some w' ->
  dom (items (store w')) ⊆ dom (items (store w)) /\ inShutdown (store w') = true.
Proof.
  intros Hs Hev. destruct ev as [cb m | now | |]; simpl in Hev.
  - unfold run_update in Hev.
    destruct (b_inShutdown w && IsEmpty (store w)).
    { injection Hev as <-. split; [reflexivity|exact Hs]. }
    assert (Hcb : exists b w1, (Some (b, w1) = Some (false, w) \/
                  exists c t1 t2, w1 = snd (handleCallback api w c t1 t2)) /\
                  match b with
                  | true => Some w1
                  | false =>
                      match m with
                      | None => Some w1
                      | Some (msg, t1, t2) =>
                          match handleCommand api welcome w1 msg t1 t2 with
                          | (Some BPanic, _) => None
                          | (_, w) => Some w
                          end
                      end
                  end = Some w').
    { destruct cb as [[[c t1] t2]|].
      - destruct (handleCallback api w c t1 t2) as [[e|] w1] eqn:E.
        + destruct e; try discriminate;
            exists true, w1; (split; [right; exists c, t1, t2; rewrite E; reflexivity|exact Hev]).
        + exists false, w1. split; [right; exists c, t1, t2; rewrite E; reflexivity|exact Hev].
      - exists false, w. split; [left; reflexivity|exact Hev]. }
    destruct Hcb as (b & w1 & Hw1 & Hrest).
    assert (H1 : dom (items (store w1)) ⊆ dom (items (store w)) /\ inShutdown (store w1) = true).
    { destruct Hw1 as [Hw1 | (c & t1 & t2 & ->)].
      - injection Hw1 as _ ->. split; [reflexivity|exact Hs].
      - apply store_step_drain; [exact Hs|apply handleCallback_store]. }
    destruct H1 as [Hd1 Hs1].
    destruct b.
    + injection Hrest as <-. split; [exact Hd1|exact Hs1].
    + destruct m as [[[msg t1] t2]|].
      * destruct (handleCommand api welcome w1 msg t1 t2) as [e w2] eqn:E.
        assert (Hw2 : w' = w2) by (destruct e as [[]|]; congruence). subst w'.
        assert (Hst := handleCommand_store api welcome w1 msg t1 t2). rewrite E in Hst.
        destruct (store_step_drain _ _ Hs1 Hst) as [Hd2 Hs2].
        split; [set_solver|exact Hs2].
      * injection Hrest as <-. split; [exact Hd1|exact Hs1].
  - injection Hev as <-. exact (apply_op_drain (store w) (OSweep now) Hs).
  - injection Hev as <-. split; [reflexivity|exact Hs].
  - injection Hev as <-. split; [reflexivity|reflexivity].
Qed.

Lemma run_events_drain (api : request -> bool) (welcome : string) (w w' : World)
    (evs : list event) :
  inShutdown (store w) = true -> run_events api welcome w evs = Some w' ->
  dom (items (store w')) ⊆ dom (items (store w)) /\ inShutdown (store w') = true.
Proof.
  revert w. induction evs as [|ev evs IH]; intros w Hs Hrun; simpl in Hrun.
  - injection Hrun as <-. split; [reflexivity|exact Hs].
  - destruct (run_event api welcome w ev) as [w1|] eqn:E; [|discriminate].
    destruct (run_event_drain api welcome w w1 ev Hs E) as [Hd Hs1].
    destruct (IH w1 Hs1 Hrun) as [Hd' Hs']. split; [set_solver|exact Hs'].
Qed.

(** Once the store is draining, nothing the bot does while it runs (any
    updates, sweeps and shutdown steps) adds a session key: the keys of
    the store only shrink. *)
Theorem run_drain_no_new_sessions (api : request -> bool) (welcome : string) (w w' : World)
    (evs : list event) :
  inShutdown (store w) = true -> run_events api welcome w evs = Some w' ->
  dom (items (store w')) ⊆ dom (items (store w)).
Proof.
  revert w. induction evs as [|ev evs IH]; intros w Hs Hrun; simpl in Hrun.
  - injection Hrun as <-. reflexivity.
  - destruct (run_event api welcome w ev) as [w1|] eqn:E; [|discriminate].
    destruct (run_event_drain api welcome w w1 ev Hs E) as [Hd Hs1].
    specialize (IH w1 Hs1 Hrun). set_solver.
Qed.

Lemma run_drain_no_new_sessions_witness :
  let w := mkworld (mkmc (items (store w1)) 10 true) (heap w1) 2%positive [] false in
  let evs := [Update None (Some (mkmsg 8 (Some 9) "/open", 1, 2));
              Update (Some (mkcb "q" 7 100 "10" 9 "1", 3, 4)) None; Sweep 20] in
  run_events (fun _ => true) "hi" w evs <> None /\
  forall w', run_events (fun _ => true) "hi" w evs = Some w' ->
  dom (items (store w')) ⊆ dom (items (store w)).
Proof.
  intros w evs. split; [vm_compute; discriminate|].
  intros w' H. exact (run_drain_no_new_sessions (fun _ => true) "hi" w w' evs eq_refl H).
Defined.

(** /open during the drain of the store, from a user without a stored
    session, still sends the keyboard with "0" and reports success, but
    stores no session: after any later updates, sweeps and shutdown steps,
    a button press of that user in that chat, at any time, leaves the
    store alone and is answered as an expired session (or with the error
    of the API). *)
Theorem open_during_drain_dead_keyboard (api : request -> bool) (welcome : string) (w : World)
    (m : Message) (t_get t_set : Z) (u : Z) :
  inShutdown (store w) = true ->
  items (store w) !! session_key (msg_chat m) u = None ->
  msg_text m = "/open"%string -> msg_from m = Some u ->
  let w' := snd (handleCommand api welcome w m t_get t_set) in
  fst (handleCommand api welcome w m t_get t_set) =
    (if api (SendKeyboard (msg_chat m) "0") then None else Some BApi) /\
  store w' = store w /\
  forall evs w'' cb t1 t2, run_events api welcome w' evs = Some w'' ->
    cb_chat cb = msg_chat m -> cb_from cb = u ->
    store (snd (handleCallback api w'' cb t1 t2)) = store w'' /\
    (fst (handleCallback api w'' cb t1 t2) = Some BSessionExpired \/
     fst (handleCallback api w'' cb t1 t2) = Some BApi).
Proof.
  intros Hs Hk Ht Hf w'.
  assert (Hg : forall t, Get (store w) (session_key (msg_chat m) u) t = None)
    by (intros t; unfold Get; rewrite Hk; reflexivity).
  assert (Hw : fst (handleCommand api welcome w m t_get t_set) =
                 (if api (SendKeyboard (msg_chat m) "0") then None else Some BApi) /\
               store w' = store w).
  { unfold w', handleCommand. rewrite Ht, Hf. simpl. rewrite Hg. simpl.
    unfold createKeyboard, send. destruct (api (SendKeyboard _ _)); simpl; [|auto].
    unfold Set_. simpl. rewrite Hs, Hk. simpl. auto. }
  destruct Hw as [He Hst]. split; [exact He|]. split; [exact Hst|].
  intros evs w'' cb t1 t2 Hrun Hc Hu.
  assert (Hs' : inShutdown (store w') = true) by (rewrite Hst; exact Hs).
  destruct (run_events_drain api welcome w' w'' evs Hs' Hrun) as [Hd _].
  assert (Hk'' : items (store w'') !! session_key (cb_chat cb) (cb_from cb) = None).
  { rewrite Hc, Hu. apply not_elem_of_dom. intros Hin. apply Hd in Hin.
    rewrite Hst in Hin. apply elem_of_dom in Hin. rewrite Hk in Hin.
    destruct Hin as [? Hin]; discriminate Hin. }
  assert (Hg'' : Get (store w'') (session_key (cb_chat cb) (cb_from cb)) t1 = None)
    by (unfold Get; rewrite Hk''; reflexivity).
  exact (callback_no_session api w'' cb t1 t2 Hg'').
Qed.

Lemma open_during_drain_dead_keyboard_witness :
  let w := mkworld (mkmc ∅ 10 true) ∅ 1%positive [] true in
  let m := mkmsg 7 (Some 9) "/open" in
  let w' := snd (handleCommand (fun _ => true) "hi" w m 3 4) in
  fst (handleCommand (fun _ => true) "hi" w m 3 4) =
    (if (fun _ => true) (SendKeyboard 7 "0") then None else Some BApi) /\
  store w' = store w /\
  forall evs w'' cb t1 t2, run_events (fun _ => true) "hi" w' evs = Some w'' ->
    cb_chat cb = 7 -> cb_from cb = 9 ->
    store (snd (handleCallback (fun _ => true) w'' cb t1 t2)) = store w'' /\
    (fst (handleCallback (fun _ => true) w'' cb t1 t2) = Some BSessionExpired \/
     fst (handleCallback (fun _ => true) w'' cb t1 t2) = Some BApi).
Proof.
  intros w m w'.
  apply (open_during_drain_dead_keyboard (fun _ => true) "hi" w m 3 4 9);
    reflexivity.
Defined.

Lemma empty_clean (mc : @Memcached loc) (now : Z) :
  IsEmpty mc = true -> IsEmpty (cleanExpiredItems mc now) = true.
Proof.
  unfold IsEmpty, cleanExpiredItems. simpl. intros H.
  apply bool_decide_eq_true in H. apply bool_decide_eq_true. rewrite H.
  apply map_filter_empty.
Qed.

(** Once [Bot.Shutdown] (or [Bot.Close]) has set [b.inShutdown] and the
    store is empty, [Run] ignores every later update: it makes no API
    call, touches no engine, and the store stays empty, whatever sweeps
    and shutdown steps happen meanwhile. *)
Theorem run_ignores_after_drain (api : request -> bool) (welcome : string) (w : World)
    (evs : list event) :
  b_inShutdown w = true -> IsEmpty (store w) = true ->
  exists w', run_events api welcome w evs = Some w' /\
    sent w' = sent w /\ heap w' = heap w /\ IsEmpty (store w') = true /\
    b_inShutdown w' = true.
Proof.
  revert w. induction evs as [|ev evs IH]; intros w Hb He; simpl.
  - exists w. auto.
  - assert (Hstep : exists w1, run_event api welcome w ev = Some w1 /\
              sent w1 = sent w /\ heap w1 = heap w /\ IsEmpty (store w1) = true /\
              b_inShutdown w1 = true).
    { destruct ev as [cb m | now | |]; simpl.
      - unfold run_update. rewrite Hb, He. simpl. exists w. auto.
      - eexists. split; [reflexivity|]. simpl. repeat split; auto. apply empty_clean, He.
      - eexists. split; [reflexivity|]. simpl. auto.
      - eexists. split; [reflexivity|]. simpl. repeat split; auto. }
    destruct Hstep as (w1 & -> & Hs1 & Hh1 & He1 & Hb1).
    destruct (IH w1 Hb1 He1) as (w' & Hr & Hs & Hh & He' & Hb').
    exists w'. split; [exact Hr|]. rewrite Hs, Hh. auto.
Qed.

Lemma run_ignores_after_drain_witness :
  let w := mkworld (NewMemcached 10) (heap w1) 2%positive [] true in
  exists w', run_events (fun _ => true) "hi" w
               [Update None (Some (mkmsg 8 (Some 9) "/open", 1, 2)); Sweep 5;
                Update (Some (mkcb "q" 7 100 "10" 9 "1", 3, 4)) (Some (mkmsg 8 (Some 9) "/help", 1, 2));
                StoreShutdown] = Some w' /\
    sent w' = sent w /\ heap w' = heap w /\ IsEmpty (store w') = true /\
    b_inShutdown w' = true.
Proof. intros w. apply run_ignores_after_drain; reflexivity. Defined.

Section NoPanic.
Variable api : request -> bool.
Variable welcome : string.

Lemma wf_ext (w w' : World) :
  store w' = store w -> heap w' = heap w -> wf w -> wf w'.
Proof. unfold wf. intros -> ->. auto. Qed.

Lemma wf_Set (w : World) (k : string) (l : loc) (t : Z) :
  wf w -> is_Some (heap w !! l) -> wf (set_store w (Set_ (store w) k l t)).
Proof.
  intros [Hs Hh] Hl. split; [|exact Hh]. simpl. unfold Set_.
  destruct (inShutdown (store w) && _); [exact Hs|].
  simpl. intros k' it Hit. destruct (decide (k' = k)) as [->|Hne].
  - rewrite lookup_insert_eq in Hit. injection Hit as <-. exact Hl.
  - rewrite lookup_insert_ne in Hit by congruence. exact (Hs k' it Hit).
Qed.

Lemma wf_alloc (w : World) :
  wf w -> wf (snd (alloc w NewCalculator)) /\
  heap (snd (alloc w NewCalculator)) !! fst (alloc w NewCalculator) = Some NewCalculator.
Proof.
  intros [Hs Hh]. simpl. split; [|apply lookup_insert_eq].
  split; simpl.
  - intros k it Hit. destruct (decide (value it = next_loc w)) as [->|Hne].
    + rewrite lookup_insert_eq. eexists. reflexivity.
    + rewrite lookup_insert_ne by congruence. exact (Hs k it Hit).
  - intros l c Hl. destruct (decide (l = next_loc w)) as [->|Hne].
    + rewrite lookup_insert_eq in Hl. injection Hl as <-. apply reach_new.
    + rewrite lookup_insert_ne in Hl by congruence. exact (Hh l c Hl).
Qed.

Lemma updateKeyboard_fields (w : World) (cb : Callback) (text : string) :
  store (snd (updateKeyboard api w cb text)) = store w /\
  heap (snd (updateKeyboard api w cb text)) = heap w /\
  fst (updateKeyboard api w cb text) <> Some BPanic.
Proof.
  unfold updateKeyboard, send.
  destruct (String.eqb _ _); [simpl; repeat split; discriminate|].
  destruct (api _); simpl; repeat split; discriminate.
Qed.

(** The end of [handleCallback] once [press] has run: the error and world
    it returns from the error, pointer and world of [press]. *)
Lemma finish_ok (w : World) (cb : Callback) (key : string) (l : loc) (c : Calculator) (t : Z) :
  wf w -> heap w !! l = Some c ->
  let r := match updateKeyboard api w cb (Display c) with
           | (None, w) => (None, set_store w (Set_ (store w) key l t))
           | (Some e, w) => (Some e, w)
           end in
  fst r <> Some BPanic /\ wf (snd r).
Proof.
  intros Hw Hl r. unfold r.
  destruct (updateKeyboard_fields w cb (Display c)) as (Hs & Hh & He).
  destruct (updateKeyboard api w cb (Display c)) as [e w'] eqn:E. simpl in *.
  assert (Hw' : wf w') by (apply (wf_ext w); assumption).
  destruct e as [e|]; simpl.
  - split; [exact He|exact Hw'].
  - split; [discriminate|]. apply (wf_Set w').
    + exact Hw'.
    + rewrite Hh, Hl. eexists. reflexivity.
Qed.

Lemma handleCallback_no_panic (w : World) (cb : Callback) (t1 t2 : Z) :
  wf w ->
  fst (handleCallback api w cb t1 t2) <> Some BPanic /\ wf (snd (handleCallback api w cb t1 t2)).
Proof.
  intros Hw. unfold handleCallback.
  unfold send. destruct (api (AnswerCallback (cb_id cb))); simpl;
    [|split; [discriminate|apply (wf_ext w); auto]].
  set (w1 := log w (AnswerCallback (cb_id cb))).
  assert (Hw1 : wf w1) by (apply (wf_ext w); auto).
  change (store w) with (store w1).
  destruct (Get (store w1) (session_key (cb_chat cb) (cb_from cb)) t1) as [l|] eqn:Eg.
  2: { destruct (updateKeyboard_fields w1 cb expired_text) as (Hs & Hh & He).
       destruct (updateKeyboard api w1 cb expired_text) as [[e|] w2]; simpl in *;
         (split; [congruence|apply (wf_ext w1); auto]). }
  apply Get_Some in Eg as (it & Hit & _ & Hv).
  destruct Hw1 as [Hs1 Hh1] eqn:Ew1.
  destruct (Hs1 _ _ Hit) as [c Hc]. rewrite Hv in Hc.
  unfold press.
  destruct (String.eqb (cb_data cb) "AC").
  { destruct (wf_alloc w1 Hw1) as [Hwa Hla].
    destruct (alloc w1 NewCalculator) as [l' wa] eqn:Ea. simpl in *.
    rewrite Hla. exact (finish_ok wa cb _ l' NewCalculator t2 Hwa Hla). }
  destruct (cb_data cb) as [|ch [|ch2 rest]];
    [simpl; split; [discriminate|exact Hw1]| |simpl; split; [discriminate|exact Hw1]].
  rewrite Hc.
  pose proof (Hh1 l c Hc) as Hr.
  destruct (reachable_no_nil c (Z.of_nat (nat_of_ascii ch)) Hr) as [Hn1 Hn2].
  set (res := if is_operand_key (Z.of_nat (nat_of_ascii ch))
              then ProcessOperand c (Z.of_nat (nat_of_ascii ch))
              else ProcessOperator c (Z.of_nat (nat_of_ascii ch))).
  assert (Hres : fst res <> Some ErrNilDereference /\ reachable (snd res)).
  { unfold res. destruct (is_operand_key _).
    - split; [exact Hn1|apply reach_operand, Hr].
    - split; [exact Hn2|apply reach_operator, Hr]. }
  change (let '(err, c') := res in
          let w := set_heap w1 (<[l := c']> (heap w1)) in
          match err with
          | None => (None, l, w)
          | Some ErrNilDereference => (Some BPanic, l, w)
          | Some _ => (Some (BEngine ErrUnsupported), l, w)
          end) with
    (let '(err, c') := res in
     let w := set_heap w1 (<[l := c']> (heap w1)) in
     match err with
     | None => (None, l, w)
     | Some ErrNilDereference => (Some BPanic, l, w)
     | Some _ => (Some (BEngine ErrUnsupported), l, w)
     end).
  destruct res as [err c'] eqn:Eres. simpl in Hres. destruct Hres as [Hne Hr'].
  set (w2 := set_heap w1 (<[l := c']> (heap w1))).
  assert (Hw2 : wf w2).
  { split; simpl.
    - intros k it' Hit'. destruct (decide (value it' = l)) as [->|Hne'].
      + rewrite lookup_insert_eq. eexists. reflexivity.
      + rewrite lookup_insert_ne by congruence. exact (Hs1 k it' Hit').
    - intros l0 c0 Hl0. destruct (decide (l0 = l)) as [->|Hne'].
      + rewrite lookup_insert_eq in Hl0. injection Hl0 as <-. exact Hr'.
      + rewrite lookup_insert_ne in Hl0 by congruence. exact (Hh1 l0 c0 Hl0). }
  destruct err as [[| |]|]; simpl.
  - split; [discriminate|exact Hw2].
  - split; [discriminate|exact Hw2].
  - contradiction.
  - assert (Hl2 : heap w2 !! l = Some c') by apply lookup_insert_eq.
    rewrite lookup_insert_eq. exact (finish_ok w2 cb _ l c' t2 Hw2 Hl2).
Qed.

Lemma handleCommand_no_panic (w : World) (m : Message) (t1 t2 : Z) :
  wf w -> (msg_text m = "/open"%string -> msg_from m <> None) ->
  fst (handleCommand api welcome w m t1 t2) <> Some BPanic /\
  wf (snd (handleCommand api welcome w m t1 t2)).
Proof.
  intros Hw Hf. unfold handleCommand, createMessage, createKeyboard, send.
  destruct (String.eqb (msg_text m) "/start");
    [destruct (api _); simpl; (split; [discriminate|apply (wf_ext w); auto])|].
  destruct (String.eqb (msg_text m) "/help");
    [destruct (api _); simpl; (split; [discriminate|apply (wf_ext w); auto])|].
  destruct (String.eqb_spec (msg_text m) "/open") as [Ho|Ho];
    [|destruct (api _); simpl; (split; [discriminate|apply (wf_ext w); auto])].
  destruct (msg_from m) as [u|]; [|exfalso; apply (Hf Ho); reflexivity].
  destruct (Get (store w) (session_key (msg_chat m) u) t1).
  - destruct (api _); simpl; (split; [discriminate|apply (wf_ext w); auto]).
  - destruct (wf_alloc w Hw) as [Hwa Hla].
    destruct (alloc w NewCalculator) as [l' wa] eqn:Ea. simpl in *.
    set (wb := log wa (SendKeyboard (msg_chat m) "0")).
    assert (Hwb : wf wb) by (apply (wf_ext wa); auto).
    destruct (api (SendKeyboard (msg_chat m) "0")); simpl.
    + split; [discriminate|]. apply (wf_Set wb); [exact Hwb|]. simpl. rewrite Hla.
      eexists. reflexivity.
    + split; [discriminate|exact Hwb].
Qed.

Ltac done_ev :=
  solve [ eexists; split; [reflexivity|eassumption]
        | do 2 eexists; split; [eassumption|reflexivity] ].

Lemma run_event_no_panic (w : World) (ev : event) :
  wf w -> open_has_sender ev -> exists w', run_event api welcome w ev = Some w' /\ wf w'.
Proof.
  intros Hw Hev. destruct ev as [cb m | now | |]; simpl.
  - unfold run_update. destruct (b_inShutdown w && IsEmpty (store w)); [done_ev|].
    assert (Hcb : exists b w1, wf w1 /\
              match cb with
              | None => Some (false, w)
              | Some (c, t1, t2) =>
                  match handleCallback api w c t1 t2 with
                  | (Some BPanic, _) => None
                  | (Some _, w) => Some (true, w)
                  | (None, w) => Some (false, w)
                  end
              end = Some (b, w1)).
    { destruct cb as [[[c t1] t2]|]; [|done_ev].
      destruct (handleCallback_no_panic w c t1 t2 Hw) as [Hn Hw1].
      destruct (handleCallback api w c t1 t2) as [[e|] w1]; simpl in *.
      - destruct e; try congruence; done_ev.
      - done_ev. }
    destruct Hcb as (b & w1 & Hw1 & ->).
    destruct b; [done_ev|].
    destruct m as [[[msg t1] t2]|]; [|done_ev].
    destruct (handleCommand_no_panic w1 msg t1 t2 Hw1 Hev) as [Hn Hw2].
    destruct (handleCommand api welcome w1 msg t1 t2) as [[e|] w2]; simpl in *.
    + destruct e; try congruence; done_ev.
    + done_ev.
  - eexists. split; [reflexivity|]. destruct Hw as [Hs Hh]. split; [|exact Hh].
    simpl. intros k it Hit. apply map_lookup_filter_Some_1_1 in Hit. exact (Hs k it Hit).
  - eexists. split; [reflexivity|]. apply (wf_ext w); auto.
  - eexists. split; [reflexivity|]. destruct Hw as [Hs Hh]. split; [|exact Hh].
    simpl. exact Hs.
Qed.

End NoPanic.

(** From a well-formed world (every stored pointer points to an engine,
    every engine reachable), [Run] never panics, whatever the API answers,
    the clock and the shutdown steps, as long as every "/open" message
    has a sender; the world stays well-formed. *)
Theorem run_never_panics (api : request -> bool) (welcome : string) (w : World)
    (evs : list event) :
  wf w -> Forall open_has_sender evs ->
  exists w', run_events api welcome w evs = Some w' /\ wf w'.
Proof.
  intros Hw Hevs. revert w Hw. induction Hevs as [|ev evs Hev _ IH]; intros w Hw; simpl.
  - eauto.
  - destruct (run_event_no_panic api welcome w ev Hw Hev) as (w1 & -> & Hw1).
    exact (IH w1 Hw1).
Qed.

Lemma run_never_panics_witness :
  exists w', run_events api_noedit "hi" w0
    [Update None (Some (mkmsg 7 (Some 9) "/open", 1, 2));
     Update (Some (mkcb "q1" 7 100 "0" 9 "8", 3, 4)) None;
     Update (Some (mkcb "q2" 7 100 "8" 9 "/", 5, 6)) None;
     Update (Some (mkcb "q3" 7 100 "8" 9 "0", 5, 6)) None;
     Update (Some (mkcb "q4" 7 100 "0" 9 "=", 5, 6)) (Some (mkmsg 7 None "/help", 1, 2));
     Sweep 30; BotShutdown; StoreShutdown] = Some w' /\ wf w'.
Proof.
  apply run_never_panics.
  - split; simpl.
    + intros k it Hit. rewrite lookup_empty in Hit. discriminate.
    + intros l c Hl. rewrite lookup_empty in Hl. discriminate.
  - repeat constructor; simpl; discriminate.
Defined.

End BotExtra.

(** * Properties of the configuration reader *)
Module EnvExtra.
Import Env.

Lemma cut_split (s : string) :
  split_comma s =
  let '(b, a, f) := cut s in b :: (if f then split_comma a else []).
Proof.
  induction s as [|c s IH]; simpl; [reflexivity|].
  destruct (Ascii.eqb c ","%char); [reflexivity|].
  rewrite IH. destruct (cut s) as [[b a] f]. reflexivity.
Qed.

Lemma cut_length (s : string) b a :
  cut s = (b, a, true) -> (String.length a < String.length s)%nat.
Proof.
  revert b. induction s as [|c s IH]; intros b H; simpl in H; [discriminate|].
  destruct (Ascii.eqb c ","%char).
  - injection H as _ <-. simpl. lia.
  - destruct (cut s) as [[b' a'] f] eqn:E. injection H as _ <- ->.
    specialize (IH b' eq_refl). simpl. lia.
Qed.

Lemma cut_notfound (s : string) b a : cut s = (b, a, false) -> a = EmptyString.
Proof.
  revert b. induction s as [|c s IH]; intros b H; simpl in H.
  - injection H as _ <-. reflexivity.
  - destruct (Ascii.eqb c ","%char); [discriminate|].
    destruct (cut s) as [[b' a'] f] eqn:E. injection H as _ <- ->. exact (IH b' eq_refl).
Qed.

Lemma contains_loop_spec (fuel : nat) (s n : string) :
  (String.length s <= fuel)%nat -> n <> EmptyString ->
  contains_loop fuel s n = true <-> In n (split_comma s).
Proof.
  revert s. induction fuel as [|fuel IH]; intros s Hl Hn.
  - destruct s; simpl in Hl; [|lia]. simpl. split; [discriminate|].
    intros [H|[]]. congruence.
  - destruct s as [|c s'].
    + simpl. split; [discriminate|]. intros [H|[]]. congruence.
    + set (s := String c s') in *. cbn [contains_loop]. unfold s at 1.
      rewrite (cut_split s).
      destruct (cut s) as [[b a] f] eqn:E.
      destruct (String.eqb_spec b n) as [->|Hb].
      * simpl. split; [intros _; left; reflexivity|reflexivity].
      * destruct f.
        -- pose proof (cut_length s b a E) as Ha.
           rewrite (IH a ltac:(lia) Hn). simpl. split; [auto|intros [H|H]; [congruence|exact H]].
        -- rewrite (cut_notfound s b a E). destruct fuel; simpl;
             (split; [discriminate|intros [H|[]]; congruence]).
Qed.

(** [parseTag] and [Contains] read a tag as its comma-separated pieces:
    the name is the first piece, and a non-empty option name is contained
    exactly when it is one of the later pieces. *)
Theorem tag_pieces (tag n : string) :
  n <> EmptyString ->
  fst (parseTag tag) = hd EmptyString (split_comma tag) /\
  (Contains (snd (parseTag tag)) n = true <-> In n (tl (split_comma tag))).
Proof.
  intros Hn. unfold parseTag. rewrite (cut_split tag).
  destruct (cut tag) as [[b a] f] eqn:E. simpl. split; [reflexivity|].
  destruct f.
  - unfold Contains. destruct (Nat.eqb_spec (String.length a) 0) as [H0|H0].
    + destruct a; [|discriminate]. simpl. split; [discriminate|].
      intros [H|[]]. congruence.
    + apply contains_loop_spec; [lia|exact Hn].
  - rewrite (cut_notfound tag b a E). simpl. split; [discriminate|intros []].
Qed.

Lemma tag_pieces_witness :
  fst (parseTag "CALCBOT_TELEGRAM_TOKEN,omitempty,required") = "CALCBOT_TELEGRAM_TOKEN"%string /\
  Contains (snd (parseTag "CALCBOT_TELEGRAM_TOKEN,omitempty,required")) "required" = true /\
  (fst (parseTag "CALCBOT_TELEGRAM_TOKEN,omitempty,required") =
     hd EmptyString (split_comma "CALCBOT_TELEGRAM_TOKEN,omitempty,required") /\
   (Contains (snd (parseTag "CALCBOT_TELEGRAM_TOKEN,omitempty,required")) "required" = true <->
    In "required"%string (tl (split_comma "CALCBOT_TELEGRAM_TOKEN,omitempty,required")))).
Proof.
  split; [vm_compute; reflexivity|]. split; [vm_compute; reflexivity|].
  apply tag_pieces. discriminate.
Defined.

Section ReadFacts.
Context {T E : Type}.
Variable LookupEnv : string -> option string.
Variable parseValue : T -> string -> string -> option E.

Lemma first_out_app {A} (g : A -> @outcome E) (l1 l2 : list A) :
  first_out g (l1 ++ l2) =
  match first_out g l1 with ONil => first_out g l2 | o => o end.
Proof.
  induction l1 as [|x l1 IH]; simpl; [reflexivity|].
  destruct (g x); [exact IH|reflexivity|reflexivity].
Qed.

Lemma read_tagged_flat (tag deftag : option string) (ty : T) :
  read_tagged LookupEnv parseValue tag deftag ty =
  first_out (step_out LookupEnv parseValue) (tagged_steps tag deftag ty).
Proof.
  destruct tag as [tv|]; simpl; [|reflexivity].
  destruct (of_error _); reflexivity.
Qed.

Lemma first_out_flat_map (fs : list (@field T))
    (IH : Forall (fun f => forall addr,
            read_field LookupEnv parseValue addr f =
            first_out (step_out LookupEnv parseValue) (examined_field addr f)) fs) :
  first_out (read_field LookupEnv parseValue true) fs =
  first_out (step_out LookupEnv parseValue) (flat_map (examined_field true) fs).
Proof.
  induction IH as [|g gs Hg _ IHgs]; simpl; [reflexivity|].
  rewrite first_out_app, <- (Hg true).
  destruct (read_field LookupEnv parseValue true g); [exact IHgs|reflexivity|reflexivity].
Qed.

Lemma read_field_flat (addr : bool) (f : @field T) :
  read_field LookupEnv parseValue addr f =
  first_out (step_out LookupEnv parseValue) (examined_field addr f).
Proof.
  revert addr.
  induction f as [exported fs IH | exported tag deftag ty | exported isnil fs IH
                 | exported isnil tag deftag ty] using field_ind'; intros addr; simpl.
  - destruct exported; [|reflexivity]. destruct addr; [|reflexivity].
    apply first_out_flat_map, IH.
  - destruct (exported && addr); [apply read_tagged_flat|reflexivity].
  - destruct (isnil && negb (exported && addr)); [reflexivity|].
    destruct exported; [|reflexivity]. apply first_out_flat_map, IH.
  - destruct (isnil && negb (exported && addr)); [reflexivity|].
    destruct exported; [apply read_tagged_flat|reflexivity].
Qed.

Lemma read_fields_flat (addr : bool) (fs : list (@field T)) :
  first_out (read_field LookupEnv parseValue addr) fs =
  first_out (step_out LookupEnv parseValue) (examined addr fs).
Proof.
  unfold examined. induction fs as [|f fs IH]; simpl; [reflexivity|].
  rewrite first_out_app, <- read_field_flat.
  destruct (read_field LookupEnv parseValue addr f); [exact IH|reflexivity|reflexivity].
Qed.

Lemma first_out_ONil {A} (g : A -> @outcome E) (l : list A) :
  first_out g l = ONil <-> Forall (fun x => g x = ONil) l.
Proof.
  induction l as [|x l IH]; simpl.
  - split; [constructor|reflexivity].
  - destruct (g x) eqn:Ex.
    + rewrite IH. split; [intros H; constructor; assumption|intros H; inversion H; assumption].
    + split; [discriminate|]. intros H. inversion H. congruence.
    + split; [discriminate|]. intros H. inversion H. congruence.
Qed.

End ReadFacts.



End EnvExtra.
